(** * node-search: the indexing and ranking engine

    A shallow embedding of the two engines of the repository:

    - [Bak]        : [index.bak.js], the in-memory engine (indexing, scoring,
                     ranking);
    - [Persistent] : [index.js], the engine on top of a LevelDB store
                     ([add], [update], [delete], [get] and the indexing
                     pipeline; its [search] is a placeholder).  The file
                     holds two revisions of the class, one after the other;
                     the model follows the second one, which counts and
                     indexes the documents.

    Conventions of the embedding.

    - JavaScript numbers are [jsnum]: a real number, [+Infinity], [-Infinity]
      or [NaN].  Rounding and the sign of zero are not modelled; [Math.log]
      and [Math.sqrt] are [ln] and [sqrt] on the reals, with the special
      values ECMAScript prescribes outside their domains.
    - A JavaScript object used as a map is an association list in insertion
      order ([obj]): this is the enumeration order of [for ... in] and
      [Object.keys] for keys that are not array indices (document identifiers
      are 32 hexadecimal digits, tokens and field names are words).  Only own
      properties are modelled.
    - The tokenizer ([compromise]), the stopword list, [JSON.stringify] and
      the MD5 digest are parameters.
    - [Array.prototype.sort] is the stable sort ECMAScript prescribes. *)

From Stdlib Require Import Reals Lra Lia List String Ascii Bool Permutation Sorted ZArith DecimalString.
From stdpp Require Import gmap strings pretty.
Import ListNotations.
Open Scope string_scope.
Open Scope list_scope.

(** ** JavaScript numbers *)

Inductive jsnum : Type :=
| Fin (r : R)
| PInf
| NInf
| NaN.

Definition of_nat (n : nat) : jsnum := Fin (INR n).

(** [a + b] *)
Definition jadd (a b : jsnum) : jsnum :=
  match a, b with
  | NaN, _ | _, NaN => NaN
  | Fin x, Fin y => Fin (x + y)
  | PInf, NInf | NInf, PInf => NaN
  | PInf, _ | _, PInf => PInf
  | NInf, _ | _, NInf => NInf
  end.

(** The infinity with the sign of [r], [NaN] for zero. *)
Definition inf_times (positive : bool) (r : R) : jsnum :=
  if Req_dec_T r 0 then NaN
  else if Rlt_dec 0 r then (if positive then PInf else NInf)
       else (if positive then NInf else PInf).

(** [a * b] *)
Definition jmul (a b : jsnum) : jsnum :=
  match a, b with
  | NaN, _ | _, NaN => NaN
  | Fin x, Fin y => Fin (x * y)
  | PInf, Fin y | Fin y, PInf => inf_times true y
  | NInf, Fin y | Fin y, NInf => inf_times false y
  | PInf, PInf | NInf, NInf => PInf
  | PInf, NInf | NInf, PInf => NInf
  end.

(** [a / b] *)
Definition jdiv (a b : jsnum) : jsnum :=
  match a, b with
  | NaN, _ | _, NaN => NaN
  | Fin x, Fin y =>
      if Req_dec_T y 0 then inf_times true x else Fin (x / y)
  | Fin _, (PInf | NInf) => Fin 0
  | PInf, Fin y => if Rlt_dec y 0 then NInf else PInf
  | NInf, Fin y => if Rlt_dec y 0 then PInf else NInf
  | (PInf | NInf), (PInf | NInf) => NaN
  end.

(** [Math.sqrt(a)] *)
Definition jsqrt (a : jsnum) : jsnum :=
  match a with
  | Fin x => if Rlt_dec x 0 then NaN else Fin (sqrt x)
  | PInf => PInf
  | NInf | NaN => NaN
  end.

(** [Math.log(a)] *)
Definition jlog (a : jsnum) : jsnum :=
  match a with
  | Fin x =>
      if Rlt_dec x 0 then NaN
      else if Req_dec_T x 0 then NInf else Fin (ln x)
  | PInf => PInf
  | NInf | NaN => NaN
  end.

(** [a < b] *)
Definition jltb (a b : jsnum) : bool :=
  match a, b with
  | NaN, _ | _, NaN => false
  | Fin x, Fin y => if Rlt_dec x y then true else false
  | NInf, NInf => false
  | NInf, _ => true
  | _, NInf => false
  | PInf, _ => false
  | Fin _, PInf => true
  end.

(** [a > b] *)
Definition jgtb (a b : jsnum) : bool := jltb b a.

(** [a <= b] *)
Definition jleb (a b : jsnum) : bool :=
  match a, b with
  | NaN, _ | _, NaN => false
  | Fin x, Fin y => if Rle_dec x y then true else false
  | NInf, _ => true
  | _, PInf => true
  | _, NInf => false
  | PInf, _ => false
  end.


(** A number proper: neither [NaN] nor an infinity. *)
Definition finite (a : jsnum) : Prop := exists r, a = Fin r.

Arguments jadd : simpl never.
Arguments jmul : simpl never.
Arguments jdiv : simpl never.
Arguments jsqrt : simpl never.
Arguments jlog : simpl never.
Arguments jltb : simpl never.
Arguments jleb : simpl never.

(** ** JavaScript objects used as maps *)

Definition obj (V : Type) : Type := list (string * V).

Section Obj.
Context {V : Type}.

(** [o[k]], [None] for [undefined] *)
Fixpoint obj_get (o : obj V) (k : string) : option V :=
  match o with
  | [] => None
  | (k', v) :: o' => if String.eqb k k' then Some v else obj_get o' k
  end.

(** [k in o] *)
Definition obj_has (o : obj V) (k : string) : bool :=
  match obj_get o k with Some _ => true | None => false end.

(** [o[k] = v]: an existing key keeps its place, a new key goes last *)
Fixpoint obj_set (o : obj V) (k : string) (v : V) : obj V :=
  match o with
  | [] => [(k, v)]
  | (k', v') :: o' =>
      if String.eqb k k' then (k', v) :: o' else (k', v') :: obj_set o' k v
  end.

(** [Object.keys(o)] *)
Definition obj_keys (o : obj V) : list string := map fst o.
End Obj.

(** ** JavaScript arrays written by index *)

Section Arr.
Context {V : Type}.

(** [a[i]] *)
Definition arr_get (a : list (option V)) (i : nat) : option V :=
  match nth_error a i with Some (Some v) => Some v | _ => None end.

(** [a[i] = v]: writing past the end extends the array with holes *)
Fixpoint arr_set (a : list (option V)) (i : nat) (v : V) : list (option V) :=
  match i, a with
  | O, [] => [Some v]
  | O, _ :: a' => Some v :: a'
  | S i', [] => None :: arr_set [] i' v
  | S i', x :: a' => x :: arr_set a' i' v
  end.
End Arr.

(** ** [Array.prototype.sort] with a comparator

    [cmp a b > 0] puts [a] after [b]; elements that compare equal keep their
    relative order. *)

Section Sort.
Context {A : Type}.
Variable cmp : A -> A -> Z.

Fixpoint sort_insert (x : A) (l : list A) : list A :=
  match l with
  | [] => [x]
  | y :: l' => if (cmp x y >? 0)%Z then y :: sort_insert x l' else x :: y :: l'
  end.

Fixpoint js_sort (l : list A) : list A :=
  match l with
  | [] => []
  | x :: l' => sort_insert x (js_sort l')
  end.
End Sort.

(** ** Documents *)

Inductive fieldValue : Type :=
| VString (s : string)
| VNumber (z : Z)
| VBool (b : bool)
| VNull.

(** A document lists its fields in enumeration order; field names are
    distinct. *)
Definition document : Type := list (string * fieldValue).

(** * [index.bak.js]: the in-memory engine *)

Module Bak.

(** A posting is the array [[tf, idf, fieldLengthNorm, this.fields[field]]];
    the last component is [None] when [this.fields[field]] is [undefined]. *)
Record posting : Type := mkPosting {
  termFreq : jsnum;
  idfAtIndex : jsnum;
  fieldNorm : jsnum;
  fieldId : option nat
}.

(** The fields of a [NodeSearch] instance.  [fieldBoosts] is an array;
    [fieldBoosts_undefined] is its property ["undefined"], which
    [addFieldBoosts] writes for a field name that was never registered. *)
Record NodeSearch : Type := mkNodeSearch {
  invertedIndex : obj (obj (list posting));
  documentStore : obj document;
  fields : obj nat;
  fieldsCount : nat;
  fieldBoosts : list (option R);
  fieldBoosts_undefined : option R
}.

(** [constructor()] *)
Definition constructor : NodeSearch :=
  {| invertedIndex := []; documentStore := []; fields := []; fieldsCount := 0;
     fieldBoosts := []; fieldBoosts_undefined := None |}.

Section Engine.
(** [nlp(string).terms().data().map(data => data.normal)] *)
Variable tokenizeNormalize : string -> list string.
(** [require('stopwords').english] *)
Variable stopwords : list string.
(** [JSON.stringify] on documents *)
Variable JSON_stringify : document -> string.
(** [crypto.createHash('md5').update(s).digest('hex')] *)
Variable md5 : string -> string.

(** [termFrequency(term, tokenizedDocument)] *)
Definition termFrequency (term : string) (tokenizedDocument : list string) : jsnum :=
  let frequency :=
    length (List.filter (fun token => String.eqb token term) tokenizedDocument) in
  jsqrt (of_nat frequency).

(** [Object.keys(this.invertedIndex[term]).length], [0] for an unseen term *)
Definition numDocumentsContainTerm (st : NodeSearch) (term : string) : nat :=
  match obj_get (invertedIndex st) term with
  | Some record => length (obj_keys record)
  | None => 0
  end.

(** [inverseDocumentFrequency(term)] *)
Definition inverseDocumentFrequency (st : NodeSearch) (term : string) : jsnum :=
  let numDocuments := length (obj_keys (documentStore st)) in
  jadd (Fin 1)
       (jlog (jdiv (of_nat numDocuments)
                   (of_nat (numDocumentsContainTerm st term + 1)))).

(** [fieldLengthNormalization(tokenizedDocument)] *)
Definition fieldLengthNormalization (tokenizedDocument : list string) : jsnum :=
  jdiv (Fin 1) (jsqrt (of_nat (length tokenizedDocument))).

(** One round of the loop of [tokenizeFields]: the registration of a field
    name that is not yet in [this.fields]. *)
Definition registerField (st : NodeSearch) (field : string) : NodeSearch :=
  if obj_has (fields st) field then st
  else
    let falsy :=
      match arr_get (fieldBoosts st) (fieldsCount st) with
      | Some b => if Req_dec_T b 0 then true else false
      | None => true
      end in
    {| invertedIndex := invertedIndex st;
       documentStore := documentStore st;
       fields := obj_set (fields st) field (fieldsCount st);
       fieldsCount := S (fieldsCount st);
       fieldBoosts :=
         if falsy then arr_set (fieldBoosts st) (fieldsCount st) 1%R
         else fieldBoosts st;
       fieldBoosts_undefined := fieldBoosts_undefined st |}.

(** [tokenizeFields(document)]: the engine after the registrations and the
    object [tokenizedDocument]. *)
Definition tokenizeFields (st : NodeSearch) (doc : document)
  : NodeSearch * obj (list string) :=
  fold_left
    (fun (acc : NodeSearch * obj (list string)) (fv : string * fieldValue) =>
       let st' := registerField (fst acc) (fst fv) in
       match snd fv with
       | VString s => (st', obj_set (snd acc) (fst fv) (tokenizeNormalize s))
       | _ => (st', snd acc)
       end)
    doc (st, []).

(** The insertion of a posting under [(token, documentId)]. *)
Definition insertPosting (index : obj (obj (list posting)))
    (token documentId : string) (p : posting) : obj (obj (list posting)) :=
  match obj_get index token with
  | Some record =>
      match obj_get record documentId with
      | Some postings =>
          obj_set index token (obj_set record documentId (postings ++ [p]))
      | None => obj_set index token (obj_set record documentId [p])
      end
  | None => obj_set index token [(documentId, [p])]
  end.

(** The posting built for one token of a field. *)
Definition makePosting (st : NodeSearch) (field : string)
    (tokens : list string) (token : string) : posting :=
  {| termFreq := termFrequency token tokens;
     idfAtIndex := inverseDocumentFrequency st token;
     fieldNorm := fieldLengthNormalization tokens;
     fieldId := obj_get (fields st) field |}.

(** The body of the inner loop of [indexDocument]. *)
Definition indexToken (documentId field : string) (tokens : list string)
    (st : NodeSearch) (token : string) : NodeSearch :=
  if existsb (String.eqb token) stopwords then st
  else
    {| invertedIndex :=
         insertPosting (invertedIndex st) token documentId
                       (makePosting st field tokens token);
       documentStore := documentStore st;
       fields := fields st;
       fieldsCount := fieldsCount st;
       fieldBoosts := fieldBoosts st;
       fieldBoosts_undefined := fieldBoosts_undefined st |}.

(** The body of the outer loop of [indexDocument]. *)
Definition indexField (documentId : string) (st : NodeSearch)
    (ft : string * list string) : NodeSearch :=
  fold_left (indexToken documentId (fst ft) (snd ft)) (snd ft) st.

(** [indexDocument(document, documentId)] *)
Definition indexDocument (st : NodeSearch) (doc : document)
    (documentId : string) : NodeSearch :=
  let (st1, tokenizedDocument) := tokenizeFields st doc in
  fold_left (indexField documentId) tokenizedDocument st1.

(** The identifier [addDocument] computes. *)
Definition documentIdOf (doc : document) : string := md5 (JSON_stringify doc).

(** [addDocument(document)] *)
Definition addDocument (st : NodeSearch) (doc : document) : NodeSearch :=
  let documentId := documentIdOf doc in
  let st1 :=
    {| invertedIndex := invertedIndex st;
       documentStore := obj_set (documentStore st) documentId doc;
       fields := fields st;
       fieldsCount := fieldsCount st;
       fieldBoosts := fieldBoosts st;
       fieldBoosts_undefined := fieldBoosts_undefined st |} in
  indexDocument st1 doc documentId.

(** [addFieldBoosts(fieldBoosts)] *)
Definition addFieldBoosts (st : NodeSearch) (boosts : obj R) : NodeSearch :=
  fold_left
    (fun (st : NodeSearch) (fb : string * R) =>
       match obj_get (fields st) (fst fb) with
       | Some id =>
           {| invertedIndex := invertedIndex st;
              documentStore := documentStore st;
              fields := fields st;
              fieldsCount := fieldsCount st;
              fieldBoosts := arr_set (fieldBoosts st) id (snd fb);
              fieldBoosts_undefined := fieldBoosts_undefined st |}
       | None =>
           {| invertedIndex := invertedIndex st;
              documentStore := documentStore st;
              fields := fields st;
              fieldsCount := fieldsCount st;
              fieldBoosts := fieldBoosts st;
              fieldBoosts_undefined := Some (snd fb) |}
       end)
    boosts st.

(** [this.fieldBoosts[posting[3]]] as a number *)
Definition boostOf (st : NodeSearch) (p : posting) : jsnum :=
  match fieldId p with
  | Some id =>
      match arr_get (fieldBoosts st) id with Some b => Fin b | None => NaN end
  | None =>
      match fieldBoosts_undefined st with Some b => Fin b | None => NaN end
  end.

(** [termScore(postings)] *)
Definition termScore (st : NodeSearch) (postings : list posting) : jsnum :=
  fold_left
    (fun score p =>
       jadd score
            (jmul (jmul (jmul (termFreq p) (idfAtIndex p)) (fieldNorm p))
                  (boostOf st p)))
    postings (Fin 0).

(** The inner loop of [scoreDocuments], over the documents of one token. *)
Definition scoreToken (st : NodeSearch) (scores : obj jsnum)
    (record : obj (list posting)) : obj jsnum :=
  fold_left
    (fun (scores : obj jsnum) (dp : string * list posting) =>
       match obj_get scores (fst dp) with
       | Some s => obj_set scores (fst dp) (jadd s (termScore st (snd dp)))
       | None => obj_set scores (fst dp) (termScore st (snd dp))
       end)
    record scores.

(** [scoreDocuments(tokenizedQuery)]; [for ... in] over [undefined] runs no
    round. *)
Definition scoreDocuments (st : NodeSearch) (tokenizedQuery : list string)
  : obj jsnum :=
  fold_left
    (fun scores token =>
       match obj_get (invertedIndex st) token with
       | Some record => scoreToken st scores record
       | None => scores
       end)
    tokenizedQuery [].

(** [queryNormalization(queryIdfs)]; [reduce] without an initial value
    starts from the first element and throws a [TypeError] ([None]) on the
    empty array.  [Math.sqrt(idf, 2)] ignores its second argument. *)
Definition queryNormalization (queryIdfs : list jsnum) : option jsnum :=
  match queryIdfs with
  | [] => None
  | first :: rest =>
      let sumOfSquaredWeights :=
        fold_left (fun total idf => jadd total (jsqrt idf)) rest first in
      Some (jdiv (Fin 1) (jsqrt sumOfSquaredWeights))
  end.

(** [token in this.invertedIndex && documentId in this.invertedIndex[token]] *)
Definition tokenInDocument (st : NodeSearch) (documentId token : string) : bool :=
  match obj_get (invertedIndex st) token with
  | Some record => obj_has record documentId
  | None => false
  end.

(** [queryCoordination(tokenizedQuery, documentId)] *)
Definition queryCoordination (st : NodeSearch) (tokenizedQuery : list string)
    (documentId : string) : jsnum :=
  let matchingTerms :=
    fold_left
      (fun (matchingTerms : nat) token =>
         if tokenInDocument st documentId token then S matchingTerms
         else matchingTerms)
      tokenizedQuery 0 in
  jdiv (of_nat matchingTerms) (of_nat (length tokenizedQuery)).

(** [results[key]] as a number ([undefined] compares like [NaN]) *)
Definition scoreAt (results : obj jsnum) (key : string) : jsnum :=
  match obj_get results key with Some s => s | None => NaN end.

(** The loop of [search] that rescales every score; [None] when
    [queryNormalization] throws. *)
Definition rescale (st : NodeSearch) (tokenizedQuery : list string)
    (queryIdfs : list jsnum) (results : obj jsnum) : option (obj jsnum) :=
  fold_left
    (fun (acc : option (obj jsnum)) documentId =>
       match acc with
       | None => None
       | Some results =>
           match queryNormalization queryIdfs with
           | None => None
           | Some norm =>
               Some (obj_set results documentId
                       (jmul (scoreAt results documentId)
                             (jmul norm
                                   (queryCoordination st tokenizedQuery documentId))))
           end
       end)
    (obj_keys results) (Some results).

(** The comparator of [search]. *)
Definition compareScores (results : obj jsnum) (a b : string) : Z :=
  if jltb (scoreAt results a) (scoreAt results b) then 1%Z
  else if jgtb (scoreAt results a) (scoreAt results b) then (-1)%Z
  else 0%Z.

(** The final scores of [search(query)], in the enumeration order of
    [results]. *)
Definition finalScores (st : NodeSearch) (query : string) : option (obj jsnum) :=
  let tokenizedQuery := tokenizeNormalize query in
  let queryIdfs := map (inverseDocumentFrequency st) tokenizedQuery in
  rescale st tokenizedQuery queryIdfs (scoreDocuments st tokenizedQuery).

(** [sortedResults] *)
Definition sortedResults (results : obj jsnum) : list string :=
  js_sort (compareScores results) (obj_keys results).

(** [search(query)]; [None] when an exception is thrown. *)
Definition search (st : NodeSearch) (query : string)
  : option (list (option document)) :=
  match finalScores st query with
  | None => None
  | Some results =>
      Some (map (fun key => obj_get (documentStore st) key) (sortedResults results))
  end.

(** The calls that change an engine, and the engine after a sequence of
    calls on a new instance. *)
Inductive call : Type :=
| AddDocument (doc : document)
| AddFieldBoosts (boosts : obj R).

Definition perform (st : NodeSearch) (c : call) : NodeSearch :=
  match c with
  | AddDocument doc => addDocument st doc
  | AddFieldBoosts boosts => addFieldBoosts st boosts
  end.

Definition after (calls : list call) : NodeSearch :=
  fold_left perform calls constructor.

End Engine.

End Bak.

(** * [index.js]: the engine on a LevelDB store *)

Module Persistent.

(** What can be thrown. *)
Inductive error : Type :=
| NotFoundError   (* the key is absent: [error.notFound] *)
| IOError         (* any other failure of a store operation *)
| WriteError      (* a [put] whose value the store refuses *)
| SyntaxError.    (* [JSON.parse] *)

(** The result of a lookup that answers a string, [null] or [undefined]. *)
Inductive fetched (A : Type) : Type :=
| Found (a : A)
| Null
| Undefined.
Arguments Found {A} a.
Arguments Null {A}.
Arguments Undefined {A}.

(** A posting as JSON: an array of numbers, [None] for [null]. *)
Definition posting : Type := list (option R).

(** The parsed value of an inverted-index entry. *)
Definition record : Type := obj (list posting).

(** The store, one map per key prefix, with the console and the failures the
    store is going to have: each store operation takes the head of [faults]
    and fails with [IOError] when it is [true].  An entry of [invertedIndex]
    is the JSON text of a record, kept as the record it parses to. *)
Record world : Type := mkWorld {
  documents : gmap string string;     (* DocumentStore:<documentId> *)
  invertedIndex : gmap string record; (* InvertedIndex:<token> *)
  documentCount : option string;      (* DocumentCount *)
  console : list error;
  faults : list bool
}.

Definition set_documents (f : gmap string string -> gmap string string)
    (w : world) : world :=
  mkWorld (f (documents w)) (invertedIndex w) (documentCount w) (console w) (faults w).
Definition set_invertedIndex (f : gmap string record -> gmap string record)
    (w : world) : world :=
  mkWorld (documents w) (f (invertedIndex w)) (documentCount w) (console w) (faults w).
Definition set_documentCount (c : option string) (w : world) : world :=
  mkWorld (documents w) (invertedIndex w) c (console w) (faults w).
Definition set_console (f : list error -> list error) (w : world) : world :=
  mkWorld (documents w) (invertedIndex w) (documentCount w) (f (console w)) (faults w).
Definition set_faults (fs : list bool) (w : world) : world :=
  mkWorld (documents w) (invertedIndex w) (documentCount w) (console w) fs.

(** ** Asynchronous code: state and exceptions

    Every [await] runs its promise to completion; so does the call of
    [_invertedIndexInsert] that [_indexDocument] does not await. *)

Inductive outcome (A : Type) : Type :=
| Return (a : A)
| Throw (e : error).
Arguments Return {A} a.
Arguments Throw {A} e.

Definition io (A : Type) : Type := world -> outcome A * world.

Definition ret {A} (a : A) : io A := fun w => (Return a, w).
Definition throw {A} (e : error) : io A := fun w => (Throw e, w).
Definition bind {A B} (m : io A) (k : A -> io B) : io B :=
  fun w =>
    match m w with
    | (Return a, w') => k a w'
    | (Throw e, w') => (Throw e, w')
    end.
(** [try { m } catch (error) { handler(error) }] *)
Definition try_catch {A} (m : io A) (handler : error -> io A) : io A :=
  fun w =>
    match m w with
    | (Return a, w') => (Return a, w')
    | (Throw e, w') => handler e w'
    end.

Notation "x <- m ;; k" := (bind m (fun x => k))
  (at level 100, m at next level, right associativity).
Notation "m ;; k" := (bind m (fun _ => k))
  (at level 100, right associativity).

(** [for (x of l) { body(x) }] *)
Fixpoint for_each {A} (l : list A) (body : A -> io unit) : io unit :=
  match l with
  | [] => ret tt
  | x :: l' => body x ;; for_each l' body
  end.

(** [console.error(error)] *)
Definition console_error (e : error) : io unit :=
  fun w => (Return tt, set_console (fun c => c ++ [e]) w).

(** ** The store ([level]) *)

(** A store operation fails when the next fault says so. *)
Definition store_op {A} (op : io A) : io A :=
  fun w =>
    match faults w with
    | true :: fs => (Throw IOError, set_faults fs w)
    | false :: fs => op (set_faults fs w)
    | [] => op w
    end.

(** [this.store.get(`DocumentStore:${documentId}`)] *)
Definition store_get_document (documentId : string) : io string :=
  store_op (fun w =>
    match documents w !! documentId with
    | Some text => (Return text, w)
    | None => (Throw NotFoundError, w)
    end).

(** [this.store.put(`DocumentStore:${documentId}`, text)] *)
Definition store_put_document (documentId text : string) : io unit :=
  store_op (fun w => (Return tt, set_documents (insert documentId text) w)).

(** [this.store.del(`DocumentStore:${documentId}`)] *)
Definition store_del_document (documentId : string) : io unit :=
  store_op (fun w => (Return tt, set_documents (base.delete documentId) w)).

(** [this.store.get(`InvertedIndex:${token}`)] *)
Definition store_get_token (token : string) : io record :=
  store_op (fun w =>
    match invertedIndex w !! token with
    | Some r => (Return r, w)
    | None => (Throw NotFoundError, w)
    end).

(** [this.store.put(`InvertedIndex:${token}`, JSON.stringify(r))] *)
Definition store_put_token (token : string) (r : record) : io unit :=
  store_op (fun w => (Return tt, set_invertedIndex (insert token r) w)).

(** [this.store.get('DocumentCount')] *)
Definition store_get_count : io string :=
  store_op (fun w =>
    match documentCount w with
    | Some text => (Return text, w)
    | None => (Throw NotFoundError, w)
    end).

(** The value of the document count on its way to the store: a string or a
    number. *)
Definition count_value : Type := (string + nat)%type.

(** [String(v)] *)
Definition count_text (v : count_value) : string :=
  match v with inl s => s | inr n => pretty n end.

(** [storedDocumentCount || 0] *)
Definition or_zero (stored : fetched string) : count_value :=
  match stored with
  | Found s => if String.eqb s "" then inr 0 else inl s
  | Null | Undefined => inr 0
  end.

(** [documentCount + num]: a string is concatenated with the number *)
Definition plus_num (documentCount : count_value) (num : nat) : count_value :=
  match documentCount with
  | inl s => inl (String.append s (pretty num))
  | inr n => inr (n + num)
  end.

(** [Number(s)] for the empty string and for decimal digits; [NaN]
    otherwise. *)
Definition string_to_number (s : string) : jsnum :=
  if String.eqb s "" then Fin 0
  else match NilZero.uint_of_string s with
       | Some d => of_nat (Nat.of_uint d)
       | None => NaN
       end.

(** The number a fetched string stands for in arithmetic. *)
Definition to_number (v : fetched string) : jsnum :=
  match v with
  | Found s => string_to_number s
  | Null => Fin 0
  | Undefined => NaN
  end.

(** A number or [undefined] as JSON: [NaN], the infinities and [undefined]
    are printed [null]. *)
Definition to_json (v : option jsnum) : option R :=
  match v with Some (Fin r) => Some r | _ => None end.

(** What the store does with [put(key, undefined)], which depends on the
    version of [level]: the put is refused, or the value is written as the
    text ["undefined"], or as the empty text. *)
Inductive undefined_put : Type := Refused | AsText | AsEmpty.

(** The text written for [undefined], if any *)
Definition undefined_text (p : undefined_put) : option string :=
  match p with
  | Refused => None
  | AsText => Some "undefined"
  | AsEmpty => Some ""
  end.

Section Engine.
(** [nlp(string).terms().data().map(data => data.normal)] *)
Variable tokenizeNormalize : string -> list string.
(** [require('stopwords').english] *)
Variable stopwords : list string.
(** [JSON.stringify] on documents, given their properties in insertion
    order *)
Variable JSON_stringify : document -> string.
(** [crypto.createHash('md5').update(s).digest('hex')] *)
Variable md5 : string -> string.
(** What the store does with [put(key, undefined)] *)
Variable put_undefined : undefined_put.

(** [this.store.put('DocumentCount', num)], [None] for [undefined] *)
Definition store_put_count (num : option count_value) : io unit :=
  match num with
  | Some v => store_op (fun w => (Return tt, set_documentCount (Some (count_text v)) w))
  | None =>
      match undefined_text put_undefined with
      | None => throw WriteError
      | Some text => store_op (fun w => (Return tt, set_documentCount (Some text) w))
      end
  end.

(** [_generateDocumentId(document)] *)
Definition _generateDocumentId (doc : document) : string :=
  md5 (JSON_stringify doc).

(** [_getNumDocuments()] *)
Definition _getNumDocuments : io (fetched string) :=
  try_catch
    (text <- store_get_count ;; ret (Found text))
    (fun error =>
       match error with
       | NotFoundError => ret Null
       | _ => console_error error ;; ret Undefined
       end).

(** [_setNumDocuments(field, num)] *)
Definition _setNumDocuments (field num : option count_value) : io unit :=
  try_catch (store_put_count num) console_error.

(** [_incrementNumDocuments(num = 1)]; the call of [_setNumDocuments] has
    one argument, so its second parameter is [undefined]. *)
Definition _incrementNumDocuments (num : nat) : io unit :=
  try_catch
    (storedDocumentCount <- _getNumDocuments ;;
     let documentCount := or_zero storedDocumentCount in
     _setNumDocuments (Some (plus_num documentCount num)) None)
    console_error.

(** [_invertedIndexGetToken(token)] *)
Definition _invertedIndexGetToken (token : string) : io (fetched record) :=
  try_catch
    (r <- store_get_token token ;; ret (Found r))
    (fun error =>
       match error with
       | NotFoundError => ret Null
       | _ => console_error error ;; ret Undefined
       end).

(** [_invertedIndexSetToken(token, record)] *)
Definition _invertedIndexSetToken (token : string) (r : record) : io unit :=
  try_catch (store_put_token token r) console_error.

(** [_invertedIndexInsert(token, documentId, posting)] *)
Definition _invertedIndexInsert (token documentId : string)
    (posting : list (option jsnum)) : io unit :=
  try_catch
    (fetchedRecord <- _invertedIndexGetToken token ;;
     match fetchedRecord with
     | Found parsed =>
         match obj_get parsed documentId with
         | Some postings =>
             _invertedIndexSetToken token
               (obj_set parsed documentId (postings ++ [map to_json posting]))
         | None =>
             _invertedIndexSetToken token
               (obj_set parsed documentId [map to_json posting])
         end
     | Null | Undefined =>
         _invertedIndexSetToken token [(documentId, [map to_json posting])]
     end)
    console_error.

(** [_termFrequency(term, tokenizedDocument)] *)
Definition _termFrequency (term : string) (tokenizedDocument : list string) : jsnum :=
  let frequency :=
    length (List.filter (fun token => String.eqb token term) tokenizedDocument) in
  jsqrt (of_nat frequency).

(** [JSON.parse(documentsContainTermRaw)]: [null] parses to [null],
    [undefined] is a syntax error. *)
Definition JSON_parse (raw : fetched record) : io (option record) :=
  match raw with
  | Found r => ret (Some r)
  | Null => ret None
  | Undefined => throw SyntaxError
  end.

(** [numDocumentsContainTerm + 1].  The parsed record is an object, not an
    array: its [length] is [undefined] and [undefined + 1] is [NaN].  (Were
    ["length"] one of its keys, [length] would be an array of postings and
    the sum a string with commas in it, which divides to [NaN] too.) *)
Definition numDocumentsContainTerm_plus_1 (documentsContainTerm : option record)
  : jsnum :=
  match documentsContainTerm with
  | Some parsed =>
      match obj_get parsed "length" with
      | None => NaN
      | Some _ => NaN
      end
  | None => of_nat (0 + 1)
  end.

(** [_inverseDocumentFrequency(term)]; [None] is the [undefined] returned
    after an exception. *)
Definition _inverseDocumentFrequency (term : string) : io (option jsnum) :=
  try_catch
    (numDocuments <- _getNumDocuments ;;
     documentsContainTermRaw <- _invertedIndexGetToken term ;;
     documentsContainTerm <- JSON_parse documentsContainTermRaw ;;
     ret (Some (jadd (Fin 1)
                     (jlog (jdiv (to_number numDocuments)
                                 (numDocumentsContainTerm_plus_1 documentsContainTerm))))))
    (fun error => console_error error ;; ret None).

(** [_fieldLengthNormalization(tokenizedDocument)] *)
Definition _fieldLengthNormalization (tokenizedDocument : list string) : jsnum :=
  jdiv (Fin 1) (jsqrt (of_nat (length tokenizedDocument))).

(** [_tokenizeFields(document)] *)
Definition _tokenizeFields (doc : document) : obj (list string) :=
  fold_left
    (fun (tokenizedDocument : obj (list string)) (fv : string * fieldValue) =>
       match snd fv with
       | VString s => obj_set tokenizedDocument (fst fv) (tokenizeNormalize s)
       | _ => tokenizedDocument
       end)
    doc [].

(** [_indexDocument(documentId, document)]: the posting has three
    components. *)
Definition _indexDocument (documentId : string) (doc : document) : io unit :=
  try_catch
    (let tokenizedDocument := _tokenizeFields doc in
     for_each tokenizedDocument (fun ft =>
       for_each (snd ft) (fun token =>
         if existsb (String.eqb token) stopwords then ret tt
         else
           idf <- _inverseDocumentFrequency token ;;
           let posting :=
             [ Some (_termFrequency token (snd ft));
               idf;
               Some (_fieldLengthNormalization (snd ft)) ] in
           _invertedIndexInsert token documentId posting)))
    console_error.

(** [add(document)] *)
Definition add (doc : document) : io unit :=
  try_catch
    (let documentId := _generateDocumentId doc in
     store_put_document documentId (JSON_stringify doc) ;;
     _incrementNumDocuments 1 ;;
     _indexDocument documentId doc)
    console_error.

(** [get(documentId)] *)
Definition get (documentId : string) : io (fetched string) :=
  try_catch
    (text <- store_get_document documentId ;; ret (Found text))
    (fun error =>
       match error with
       | NotFoundError => ret Null
       | _ => console_error error ;; ret Undefined
       end).

(** The own enumerable properties of a string: its characters, under
    their indices from [i] on. *)
Fixpoint string_properties (i : nat) (s : string) : document :=
  match s with
  | EmptyString => []
  | String c s' => (pretty i, VString (String c "")) :: string_properties (S i) s'
  end.

(** [Object.assign({}, previousDocumentVersion, partialUpdatedDocument)];
    [null] and [undefined] sources are skipped. *)
Definition Object_assign (previous : fetched string) (partialDocument : document)
  : document :=
  let copied :=
    match previous with
    | Found text => string_properties 0 text
    | Null | Undefined => []
    end in
  fold_left (fun o fv => obj_set o (fst fv) (snd fv)) partialDocument copied.

(** [update(documentId, partialUpdatedDocument)] *)
Definition update (documentId : string) (partialUpdatedDocument : document) : io unit :=
  try_catch
    (previousDocumentVersion <- get documentId ;;
     let newDocument := Object_assign previousDocumentVersion partialUpdatedDocument in
     store_put_document documentId (JSON_stringify newDocument))
    console_error.

(** [delete(documentId)] *)
Definition delete (documentId : string) : io unit :=
  try_catch (store_del_document documentId) console_error.

(** [search()] returns [null]. *)
Definition search : fetched (list document) := Null.

(** The public operations that change the store. *)
Inductive call : Type :=
| Add (doc : document)
| Update (documentId : string) (partialUpdatedDocument : document)
| Delete (documentId : string).

Definition perform (c : call) : io unit :=
  match c with
  | Add doc => add doc
  | Update documentId partialUpdatedDocument => update documentId partialUpdatedDocument
  | Delete documentId => delete documentId
  end.

End Engine.

(** The store before anything is written, with the failures to come. *)
Definition empty_world (failures : list bool) : world :=
  mkWorld ∅ ∅ None [] failures.

(** The failures of store operations to come, and those on the console. *)
Definition pending_failures (w : world) : nat :=
  length (List.filter (fun b : bool => b) (faults w)).
Definition is_IOError (e : error) : bool :=
  match e with IOError => true | _ => false end.
Definition logged_failures (w : world) : nat :=
  length (List.filter is_IOError (console w)).
(** One when the outcome is a store failure thrown to the caller. *)
Definition thrown_failure {A} (r : outcome A) : nat :=
  match r with Throw IOError => 1 | _ => 0 end.

(** The document count as a number, [0] when the key is absent. *)
Definition count_number (w : world) : jsnum :=
  match documentCount w with
  | Some text => string_to_number text
  | None => Fin 0
  end.

End Persistent.

(** * The specification's formulas and the inputs of the examples *)

(** The formulas as the specification words them, to compare with the code. *)
Module Spec.

(** The distinct tokens of a query, in order of first occurrence. *)
Definition distinctTokens (tokenizedQuery : list string) : list string :=
  nodup string_dec tokenizedQuery.


(** Query normalization: [1 / sqrt(sum of the squared IDFs)]. *)
Definition sumOfSquares (idfs : list R) : R :=
  fold_right (fun idf total => (idf * idf + total)%R) 0%R idfs.
Definition queryNormalization (idfs : list R) : jsnum :=
  Fin (1 / sqrt (sumOfSquares idfs)).

(** Coordination: the distinct query tokens present in the document over
    the distinct query tokens. *)
Definition queryCoordination (present : string -> bool)
    (tokenizedQuery : list string) : jsnum :=
  Fin (INR (length (List.filter present (distinctTokens tokenizedQuery)))
       / INR (length (distinctTokens tokenizedQuery))).

(** Update: the partial fields over the stored ones, field by field. *)
Definition merge (stored partialFields : document) : document :=
  fold_left (fun o fv => obj_set o (fst fv) (snd fv)) partialFields stored.

End Spec.

Module Examples.

(** A tokenizer for the examples: the words between spaces. *)
Fixpoint split_words (current s : string) : list string :=
  match s with
  | EmptyString => if String.eqb current "" then [] else [current]
  | String c s' =>
      if Ascii.eqb c " "
      then (if String.eqb current "" then split_words "" s'
            else current :: split_words "" s')
      else split_words (String.append current (String c "")) s'
  end.
Definition words (s : string) : list string := split_words "" s.

(** A serializer for the examples: the fields and their values, one after
    the other. *)
Definition value_text (v : fieldValue) : string :=
  match v with
  | VString s => s
  | VNumber z => pretty z
  | VBool true => "true"
  | VBool false => "false"
  | VNull => "null"
  end.
Fixpoint fields_text (d : document) : string :=
  match d with
  | [] => ""
  | (k, v) :: d' =>
      String.append k (String.append ":" (String.append (value_text v)
        (String.append ";" (fields_text d'))))
  end.
Definition serialize (d : document) : string :=
  String.append "{" (String.append (fields_text d) "}").

(** A digest for the examples: the text itself. *)
Definition digest (s : string) : string := s.

Definition doc_cooking : document := [("title", VString "cooking")].
Definition doc_ideas : document := [("title", VString "great cooking ideas")].

(** The in-memory engine of the examples, without stopwords. *)
Definition bak_add : Bak.NodeSearch -> document -> Bak.NodeSearch :=
  Bak.addDocument words [] serialize digest.

(** The persistent engine of the examples, without stopwords; [policy]
    says what the store does with [undefined]. *)
Definition add (policy : Persistent.undefined_put) : document -> Persistent.io unit :=
  Persistent.add words [] serialize digest policy.
Definition update : string -> document -> Persistent.io unit :=
  Persistent.update serialize.

Definition partial_body : document := [("body", VString "recipes")].

End Examples.

(** * Auxiliary definitions of the statements *)

(** The entry of the score map after [search] has rescaled it: the raw score
    times the normalization of the query times the coordination of the
    document. *)
Definition rescaled (st : Bak.NodeSearch) (q : list string) (norm : jsnum)
    (ks : string * jsnum) : string * jsnum :=
  (fst ks, jmul (snd ks) (jmul norm (Bak.queryCoordination st q (fst ks)))).

(** A posting whose components are numbers and whose field has a boost. *)
Definition posting_ok (st : Bak.NodeSearch) (p : Bak.posting) : Prop :=
  finite (Bak.termFreq p) /\ finite (Bak.idfAtIndex p) /\
  finite (Bak.fieldNorm p) /\
  exists i b, Bak.fieldId p = Some i /\ arr_get (Bak.fieldBoosts st) i = Some b.

(** What the calls keep true of an engine: the documents of the inverted
    index are stored, each once per token, with postings as above, and every
    registered field has a boost. *)
Definition wellFormed (st : Bak.NodeSearch) : Prop :=
  (forall token record,
     obj_get (Bak.invertedIndex st) token = Some record ->
     NoDup (obj_keys record) /\
     forall d ps, In (d, ps) record ->
       In d (obj_keys (Bak.documentStore st)) /\ Forall (posting_ok st) ps) /\
  (forall field i,
     obj_get (Bak.fields st) field = Some i ->
     exists b, arr_get (Bak.fieldBoosts st) i = Some b).

(** The tokens [indexDocument] goes through, in order, each with its field
    and the token sequence of its field. *)
Definition workItems (tokenizedDocument : obj (list string))
  : list (string * list string * string) :=
  flat_map (fun ft => map (fun token => (fst ft, snd ft, token)) (snd ft))
           tokenizedDocument.

(** The body of the inner loop of [indexDocument] on such a token. *)
Definition indexItem (stopwords : list string) (documentId : string)
    (st : Bak.NodeSearch) (item : string * list string * string) : Bak.NodeSearch :=
  Bak.indexToken stopwords documentId (fst (fst item)) (snd (fst item)) st (snd item).


(** The engine once [addDocument] has stored the document, before it
    indexes it. *)
Definition withDocument (st : Bak.NodeSearch) (documentId : string)
    (doc : document) : Bak.NodeSearch :=
  {| Bak.invertedIndex := Bak.invertedIndex st;
     Bak.documentStore := obj_set (Bak.documentStore st) documentId doc;
     Bak.fields := Bak.fields st;
     Bak.fieldsCount := Bak.fieldsCount st;
     Bak.fieldBoosts := Bak.fieldBoosts st;
     Bak.fieldBoosts_undefined := Bak.fieldBoosts_undefined st |}.

Section PersistentPredicates.
Import Persistent.

(** A computation that throws nothing. *)
Definition returns {A} (m : io A) : Prop :=
  forall w, exists a w', m w = (Return a, w').

(** [accounted debt m]: along [m], each failure of a store operation either
    is thrown by [m] or is on the console afterwards; [debt] failures are
    owed from before. *)
Definition accounted {A} (debt : nat) (m : io A) : Prop :=
  forall w,
    pending_failures w + logged_failures w + debt
    = pending_failures (snd (m w)) + logged_failures (snd (m w))
      + thrown_failure (fst (m w)).

(** An operation of the store proper: it touches neither the console nor
    the failures to come, and throws no [IOError] of its own. *)
Definition quiet {A} (op : io A) : Prop :=
  forall w,
    faults (snd (op w)) = faults w /\ console (snd (op w)) = console w /\
    thrown_failure (fst (op w)) = 0.

(** [keeps P m]: [P] holds after [m] when it holds before, however [m] ends. *)
Definition keeps {A} (P : world -> Prop) (m : io A) : Prop :=
  forall w, P w -> P (snd (m w)).

(** The documents and the document count during indexing, in a store that
    does not fail. *)
Definition settled (D : gmap string string) (c : option string) (w : world) : Prop :=
  documents w = D /\ documentCount w = c /\ faults w = [].

(** [ensures P m Q]: from a world where [P] holds, [m] ends in a world where
    [P] holds, and the value it returns, if any, satisfies [Q]. *)
Definition ensures {A} (P : world -> Prop) (m : io A) (Q : A -> Prop) : Prop :=
  forall w, P w ->
    P (snd (m w)) /\
    match fst (m w) with Return a => Q a | Throw _ => True end.

(** Every posting of the record has three components. *)
Definition threeComponents (r : record) : Prop :=
  forall d ps p, In (d, ps) r -> In p ps -> length p = 3.

(** Every posting of the inverted index has three components. *)
Definition threeComponentIndex (w : world) : Prop :=
  forall token r, invertedIndex w !! token = Some r -> threeComponents r.

End PersistentPredicates.

(** * Auxiliary definitions of further statements *)

(** [this.invertedIndex[token][documentId]], the empty list when the token
    or the document is absent. *)
Definition postingsOf (index : obj (obj (list Bak.posting)))
    (token documentId : string) : list Bak.posting :=
  match obj_get index token with
  | Some record =>
      match obj_get record documentId with
      | Some postings => postings
      | None => []
      end
  | None => []
  end.

(** The occurrences of a token among the tokens [indexDocument] goes
    through. *)
Definition occurrences (token : string)
    (items : list (string * list string * string)) : nat :=
  length (List.filter (fun item => String.eqb (snd item) token) items).

(** The fields of an engine are numbered in the order of their registration,
    and the array of boosts has one boost for each of them. *)
Definition numbered (st : Bak.NodeSearch) : Prop :=
  map snd (Bak.fields st) = seq 0 (Bak.fieldsCount st) /\
  NoDup (obj_keys (Bak.fields st)) /\
  length (Bak.fieldBoosts st) = Bak.fieldsCount st /\
  Forall (fun boost => boost <> None) (Bak.fieldBoosts st).

(** The sum of a non-empty list of numbers, from the first one on;
    [None] for the empty list. *)
Definition sum_from_first (l : list jsnum) : option jsnum :=
  match l with
  | [] => None
  | x :: l' => Some (fold_left jadd l' x)
  end.



(** A positive number. *)
Definition positive (a : jsnum) : Prop := exists x, a = Fin x /\ (0 < x)%R.



(** A posting as [index.js] leaves it in the store: a term frequency, [null]
    where the IDF should be, and a field-length normalization. *)
Definition withoutIdf (p : Persistent.posting) : Prop :=
  exists tf fln : R,
    p = [Some tf; None; Some fln] /\ (1 <= tf)%R /\ (0 < fln <= 1)%R.

(** Every posting of the record is such a posting. *)
Definition recordWithoutIdf (r : Persistent.record) : Prop :=
  Forall (fun entry => Forall withoutIdf (snd entry)) r.

(** The store as the calls keep it: no posting has an IDF, and the value
    under [DocumentCount], if any, is what the store writes for
    [undefined]. *)
Definition uncounted (w : Persistent.world) : Prop :=
  map_Forall (fun _ r => recordWithoutIdf r) (Persistent.invertedIndex w) /\
  (Persistent.documentCount w = None \/
   Persistent.documentCount w = Some "undefined" \/
   Persistent.documentCount w = Some "").

(** No token of the list is a key of the inverted index. *)
Definition unindexed (tokens : list string) (w : Persistent.world) : Prop :=
  Forall (fun token => Persistent.invertedIndex w !! token = None) tokens.

Module Samples.
(** A boost for the titles. *)
Definition boost_title : obj R := [("title", 2%R)].
(** A posting on its way to the store. *)
Definition posting_one : list (option jsnum) := [Some (Fin 1); None; Some (Fin 1)].
End Samples.


(** * Facts about the JavaScript values *)

Section NumberFacts.

Lemma jdiv_Fin (x y : R) : y <> 0%R -> jdiv (Fin x) (Fin y) = Fin (x / y).
Proof.
  intros Hy. unfold jdiv. destruct (Req_dec_T y 0) as [E | _]; [contradiction | reflexivity].
Qed.

Lemma jlog_Fin (x : R) : (0 < x)%R -> jlog (Fin x) = Fin (ln x).
Proof.
  intros Hx. unfold jlog.
  destruct (Rlt_dec x 0) as [H | _]; [lra |].
  destruct (Req_dec_T x 0) as [H | _]; [lra | reflexivity].
Qed.

Lemma jsqrt_Fin (x : R) : (0 <= x)%R -> jsqrt (Fin x) = Fin (sqrt x).
Proof.
  intros Hx. unfold jsqrt. destruct (Rlt_dec x 0) as [H | _]; [lra | reflexivity].
Qed.

Lemma jltb_Fin (x y : R) : jltb (Fin x) (Fin y) = true <-> (x < y)%R.
Proof.
  unfold jltb. destruct (Rlt_dec x y); split; intros; try reflexivity; try assumption; try discriminate.
  contradiction.
Qed.

Lemma jleb_Fin (x y : R) : jleb (Fin x) (Fin y) = true <-> (x <= y)%R.
Proof.
  unfold jleb. destruct (Rle_dec x y); split; intros; try reflexivity; try assumption; try discriminate.
  contradiction.
Qed.






(** [0 < ln 2 < 1], that is [1 < 2 < e]. *)
Lemma ln_2_bounds : (0 < ln 2 < 1)%R.
Proof.
  split.
  - rewrite <- ln_1. apply ln_increasing; lra.
  - pose proof (exp_ineq1 1 ltac:(lra)) as He.
    assert (ln 2 < ln (exp 1))%R as H by (apply ln_increasing; lra).
    rewrite ln_exp in H. exact H.
Qed.

End NumberFacts.

Section ObjFacts.
Context {V : Type}.
Implicit Types (o : obj V) (k : string) (v : V).

Lemma obj_get_set o k k' v :
  obj_get (obj_set o k v) k' = if String.eqb k' k then Some v else obj_get o k'.
Proof.
  induction o as [| [k0 v0] o IH]; simpl.
  - reflexivity.
  - destruct (String.eqb k k0) eqn:E; simpl.
    + apply String.eqb_eq in E. subst k0.
      destruct (String.eqb k' k); reflexivity.
    + rewrite IH. destruct (String.eqb k' k0) eqn:E'; [| reflexivity].
      apply String.eqb_eq in E'. subst k0.
      destruct (String.eqb k' k) eqn:E''; [| reflexivity].
      apply String.eqb_eq in E''. subst k'. rewrite String.eqb_refl in E. discriminate.
Qed.

Lemma obj_get_set_eq o k v : obj_get (obj_set o k v) k = Some v.
Proof. rewrite obj_get_set, String.eqb_refl. reflexivity. Qed.

Lemma obj_get_set_ne o k k' v :
  k' <> k -> obj_get (obj_set o k v) k' = obj_get o k'.
Proof.
  intros Hne. rewrite obj_get_set.
  destruct (String.eqb k' k) eqn:E; [| reflexivity].
  apply String.eqb_eq in E. contradiction.
Qed.

Lemma obj_has_In o k : obj_has o k = true <-> In k (obj_keys o).
Proof.
  unfold obj_has. induction o as [| [k0 v0] o IH]; simpl.
  - split; [discriminate | tauto].
  - destruct (String.eqb k k0) eqn:E.
    + apply String.eqb_eq in E. subst. split; auto.
    + rewrite IH. split; [auto |]. intros [H | H]; [| exact H].
      subst k0. rewrite String.eqb_refl in E. discriminate.
Qed.

Lemma obj_get_None_In o k : obj_get o k = None <-> ~ In k (obj_keys o).
Proof.
  rewrite <- obj_has_In. unfold obj_has.
  destruct (obj_get o k); split; intros; try congruence; try reflexivity; exfalso; auto.
Qed.

Lemma obj_get_Some_In o k v : obj_get o k = Some v -> In (k, v) o.
Proof.
  induction o as [| [k0 v0] o IH]; simpl; [discriminate |].
  destruct (String.eqb k k0) eqn:E.
  - apply String.eqb_eq in E. subst. intros [= ->]. auto.
  - auto.
Qed.

(** Writing a key that is present keeps the keys; a new key goes last. *)
Lemma obj_keys_set o k v :
  obj_keys (obj_set o k v) = if obj_has o k then obj_keys o else obj_keys o ++ [k].
Proof.
  unfold obj_has. induction o as [| [k0 v0] o IH]; simpl.
  - reflexivity.
  - destruct (String.eqb k k0) eqn:E; simpl.
    + reflexivity.
    + rewrite IH. destruct (obj_get o k); reflexivity.
Qed.

Lemma obj_set_NoDup o k v : NoDup (obj_keys o) -> NoDup (obj_keys (obj_set o k v)).
Proof.
  intros Hnd. rewrite obj_keys_set. destruct (obj_has o k) eqn:E; [exact Hnd |].
  apply NoDup_app. split; [exact Hnd | split].
  - intros x Hx Hx'. apply list_elem_of_In in Hx, Hx'. simpl in Hx'.
    destruct Hx' as [<- | []]. apply obj_has_In in Hx. congruence.
  - apply NoDup_singleton.
Qed.

End ObjFacts.

Lemma obj_set_In {V : Type} (o : obj V) (k : string) (v : V) (k' : string) (v' : V) :
  In (k', v') (obj_set o k v) -> In (k', v') o \/ (k' = k /\ v' = v).
Proof.
  induction o as [| [k0 v0] o IH]; simpl.
  - intros [[= <- <-] | []]. auto.
  - destruct (String.eqb k k0) eqn:E; simpl.
    + apply String.eqb_eq in E. subst k0. intros [[= <- <-] | H]; auto.
    + intros [H | H]; [auto |]. apply IH in H. tauto.
Qed.

Lemma obj_set_Forall {V : Type} (P : string * V -> Prop) (o : obj V) (k : string) (v : V) :
  Forall P o -> P (k, v) -> Forall P (obj_set o k v).
Proof.
  intros Ho Hv. rewrite List.Forall_forall in *. intros [k' v'] Hin.
  apply obj_set_In in Hin. destruct Hin as [Hin | [-> ->]]; auto.
Qed.

Lemma obj_get_Forall {V : Type} (P : string * V -> Prop) (o : obj V) (k : string) (v : V) :
  Forall P o -> obj_get o k = Some v -> P (k, v).
Proof.
  intros Ho Hget. apply obj_get_Some_In in Hget.
  rewrite List.Forall_forall in Ho. auto.
Qed.

Lemma In_keys_nonempty {V : Type} (o : obj V) (k : string) :
  In k (obj_keys o) -> o <> [].
Proof. destruct o; [intros [] | discriminate]. Qed.

Section ArrFacts.
Context {V : Type}.

Lemma arr_get_set (a : list (option V)) (i j : nat) (v : V) :
  arr_get (arr_set a i v) j = if Nat.eqb i j then Some v else arr_get a j.
Proof.
  unfold arr_get. revert a j. induction i as [| i IH]; intros a j.
  - destruct a, j; simpl; try reflexivity. destruct j; reflexivity.
  - destruct a as [| x a], j as [| j]; simpl; try reflexivity.
    + rewrite IH. destruct (Nat.eqb i j); [reflexivity |]. destruct j; reflexivity.
    + apply IH.
Qed.

Lemma arr_set_defined (a : list (option V)) (i j : nat) (v b : V) :
  arr_get a j = Some b -> exists b', arr_get (arr_set a i v) j = Some b'.
Proof.
  intros H. rewrite arr_get_set. destruct (Nat.eqb i j); eauto.
Qed.
End ArrFacts.

Lemma finite_Fin (r : R) : finite (Fin r).
Proof. exists r. reflexivity. Qed.

Lemma jsqrt_of_nat (n : nat) : jsqrt (of_nat n) = Fin (sqrt (INR n)).
Proof. apply jsqrt_Fin, pos_INR. Qed.

(** * Facts about the sort *)

Section SortFacts.
Context {A : Type}.
Variable cmp : A -> A -> Z.

Lemma sort_insert_perm (x : A) (l : list A) :
  Permutation (sort_insert cmp x l) (x :: l).
Proof.
  induction l as [| y l IH]; simpl.
  - reflexivity.
  - destruct (cmp x y >? 0)%Z.
    + rewrite IH. apply perm_swap.
    + reflexivity.
Qed.

Lemma js_sort_perm (l : list A) : Permutation (js_sort cmp l) l.
Proof.
  induction l as [| x l IH]; simpl.
  - reflexivity.
  - rewrite sort_insert_perm. apply perm_skip, IH.
Qed.



(** Order: when the comparator agrees with a transitive relation on the
    elements to sort, the result is sorted for it. *)
Section Sorted.
Variable ok : A -> Prop.
Variable rel : A -> A -> Prop.
Hypothesis cmp_keep : forall x y, ok x -> ok y -> (cmp x y >? 0)%Z = false -> rel x y.
Hypothesis cmp_swap : forall x y, ok x -> ok y -> (cmp x y >? 0)%Z = true -> rel y x.
Hypothesis rel_trans : forall x y z, ok x -> ok y -> ok z -> rel x y -> rel y z -> rel x z.


End Sorted.

End SortFacts.

(** * Facts about the in-memory engine *)

(** ** The indexing pipeline *)

Section BakIndexing.
Import Bak.


(** The term frequency is a number. *)
Lemma termFrequency_finite term tokens : finite (termFrequency term tokens).
Proof. unfold termFrequency. rewrite jsqrt_of_nat. apply finite_Fin. Qed.

Lemma fieldLengthNormalization_value tokens :
  tokens <> [] ->
  fieldLengthNormalization tokens = Fin (1 / sqrt (INR (length tokens))).
Proof.
  intros Hne. unfold fieldLengthNormalization. rewrite jsqrt_of_nat.
  apply jdiv_Fin. intros H. apply sqrt_eq_0 in H; [| apply pos_INR].
  change 0%R with (INR 0) in H. apply INR_eq in H.
  destruct tokens; [congruence | discriminate].
Qed.

Lemma inverseDocumentFrequency_value st term :
  documentStore st <> [] ->
  inverseDocumentFrequency st term
  = Fin (1 + ln (INR (length (obj_keys (documentStore st)))
                 / (INR (numDocumentsContainTerm st term) + 1))).
Proof.
  intros Hne. unfold inverseDocumentFrequency, of_nat.
  assert (0 < INR (length (obj_keys (documentStore st))))%R as HN.
  { apply lt_0_INR. destruct (documentStore st); [congruence | simpl; lia]. }
  assert (0 < INR (numDocumentsContainTerm st term + 1))%R as Hdf.
  { apply lt_0_INR. lia. }
  rewrite jdiv_Fin by lra. rewrite jlog_Fin by (apply Rdiv_lt_0_compat; assumption).
  rewrite plus_INR. simpl. reflexivity.
Qed.

Lemma filter_eqb_count (tokens : list string) (token : string) :
  length (List.filter (fun t => String.eqb t token) tokens)
  = count_occ string_dec tokens token.
Proof.
  induction tokens as [| t tokens IH]; simpl; [reflexivity |].
  destruct (string_dec t token) as [-> | Hne].
  - rewrite String.eqb_refl. simpl. f_equal. exact IH.
  - apply String.eqb_neq in Hne. rewrite Hne. exact IH.
Qed.


(** ** The indexing loop *)

Lemma indexDocument_items tokenizeNormalize stopwords st doc documentId :
  indexDocument tokenizeNormalize stopwords st doc documentId
  = fold_left (indexItem stopwords documentId)
      (workItems (snd (tokenizeFields tokenizeNormalize st doc)))
      (fst (tokenizeFields tokenizeNormalize st doc)).
Proof.
  unfold indexDocument. destruct (tokenizeFields tokenizeNormalize st doc) as [st1 tdoc].
  simpl. revert st1. induction tdoc as [| [f toks] tdoc IH]; intros st1; simpl.
  - reflexivity.
  - rewrite fold_left_app, IH. f_equal.
    unfold indexField. simpl.
    assert (forall l st1,
      fold_left (indexToken stopwords documentId f toks) l st1
      = fold_left (indexItem stopwords documentId)
          (map (fun token => (f, toks, token)) l) st1) as H.
    { induction l as [| t l IHl]; intros st'; simpl; [reflexivity |]. apply IHl. }
    rewrite H. reflexivity.
Qed.

Lemma addDocument_items tokenizeNormalize stopwords JSON_stringify md5 st doc :
  let documentId := documentIdOf JSON_stringify md5 doc in
  addDocument tokenizeNormalize stopwords JSON_stringify md5 st doc
  = fold_left (indexItem stopwords documentId)
      (workItems (snd (tokenizeFields tokenizeNormalize (withDocument st documentId doc) doc)))
      (fst (tokenizeFields tokenizeNormalize (withDocument st documentId doc) doc)).
Proof.
  intros documentId. unfold addDocument. fold documentId.
  apply indexDocument_items.
Qed.

(** [tokenizeFields] leaves the index and the documents alone. *)
Lemma registerField_frame st field :
  invertedIndex (registerField st field) = invertedIndex st /\
  documentStore (registerField st field) = documentStore st.
Proof. unfold registerField. destruct (obj_has (fields st) field); auto. Qed.

Lemma tokenizeFields_frame tokenizeNormalize st doc :
  invertedIndex (fst (tokenizeFields tokenizeNormalize st doc)) = invertedIndex st /\
  documentStore (fst (tokenizeFields tokenizeNormalize st doc)) = documentStore st.
Proof.
  unfold tokenizeFields.
  match goal with |- context [fold_left ?f doc _] => set (step := f) end.
  assert (forall acc,
    invertedIndex (fst (fold_left step doc acc)) = invertedIndex (fst acc) /\
    documentStore (fst (fold_left step doc acc)) = documentStore (fst acc)) as H.
  { induction doc as [| [f v] doc IH]; intros acc; simpl; [auto |].
    destruct (IH (step acc (f, v))) as [Hi Hd]. rewrite Hi, Hd.
    destruct (registerField_frame (fst acc) f) as [Hi' Hd'].
    unfold step. simpl. destruct v; simpl; auto. }
  apply (H (st, [])).
Qed.

Lemma indexItem_frame stopwords documentId st item :
  documentStore (indexItem stopwords documentId st item) = documentStore st /\
  fields (indexItem stopwords documentId st item) = fields st /\
  fieldBoosts (indexItem stopwords documentId st item) = fieldBoosts st.
Proof.
  unfold indexItem, indexToken.
  destruct (existsb (String.eqb (snd item)) stopwords); auto.
Qed.

Lemma indexItems_frame stopwords documentId items st :
  documentStore (fold_left (indexItem stopwords documentId) items st) = documentStore st /\
  fields (fold_left (indexItem stopwords documentId) items st) = fields st /\
  fieldBoosts (fold_left (indexItem stopwords documentId) items st) = fieldBoosts st.
Proof.
  revert st. induction items as [| item items IH]; intros st; simpl; [auto |].
  destruct (IH (indexItem stopwords documentId st item)) as (H1 & H2 & H3).
  destruct (indexItem_frame stopwords documentId st item) as (H1' & H2' & H3').
  rewrite H1, H2, H3. auto.
Qed.







End BakIndexing.

Section BakScoring.
Import Bak.

(** ** Queries without a match *)

Lemma scoreDocuments_absent (st : NodeSearch) (tokenizedQuery : list string) :
  Forall (fun token => obj_get (invertedIndex st) token = None) tokenizedQuery ->
  scoreDocuments st tokenizedQuery = [].
Proof.
  unfold scoreDocuments. generalize (@nil (string * jsnum)) as scores.
  induction tokenizedQuery as [| token q IH]; intros scores Habsent; simpl.
  - reflexivity.
  - inversion Habsent as [| ? ? Htoken Hq]; subst. rewrite Htoken. apply IH, Hq.
Qed.


(** ** The coordination factor *)

Lemma count_matching (f : string -> bool) (q : list string) (n : nat) :
  fold_left (fun (m : nat) token => if f token then S m else m) q n
  = n + length (List.filter f q).
Proof.
  revert n. induction q as [| token q IH]; intros n; simpl.
  - lia.
  - rewrite IH. destruct (f token); simpl; lia.
Qed.

Lemma scoreToken_keys (st : NodeSearch) (record : obj (list posting))
    (scores : obj jsnum) (d : string) :
  In d (obj_keys (scoreToken st scores record)) ->
  In d (obj_keys scores) \/ In d (obj_keys record).
Proof.
  unfold scoreToken. revert scores.
  induction record as [| [d' ps] record IH]; intros scores; simpl.
  - auto.
  - intros H. apply IH in H. destruct H as [H | H]; [| auto].
    assert (forall s, In d (obj_keys (obj_set scores d' s)) ->
                      In d (obj_keys scores) \/ d' = d) as Hset.
    { intros s. rewrite obj_keys_set. destruct (obj_has scores d'); [auto |].
      rewrite in_app_iff. simpl. tauto. }
    destruct (obj_get scores d'); apply Hset in H; tauto.
Qed.

(** A candidate holds a posting for some token of the query. *)
Lemma candidate_matches (st : NodeSearch) (q : list string) (d : string) :
  In d (obj_keys (scoreDocuments st q)) ->
  exists token, In token q /\ tokenInDocument st d token = true.
Proof.
  unfold scoreDocuments.
  assert (forall scores,
    In d (obj_keys (fold_left
      (fun scores token =>
         match obj_get (invertedIndex st) token with
         | Some record => scoreToken st scores record
         | None => scores
         end) q scores)) ->
    In d (obj_keys scores) \/
    exists token, In token q /\ tokenInDocument st d token = true) as H.
  { induction q as [| token q IH]; intros scores; simpl; [auto |].
    intros Hd. apply IH in Hd. destruct Hd as [Hd | (t & Ht & Hm)].
    - destruct (obj_get (invertedIndex st) token) as [record |] eqn:E; [| auto].
      apply scoreToken_keys in Hd. destruct Hd as [Hd | Hd]; [auto |].
      right. exists token. split; [auto |].
      unfold tokenInDocument. rewrite E. apply obj_has_In, Hd.
    - right. exists t. auto. }
  intros Hd. apply H in Hd. destruct Hd as [[] | Hd]. exact Hd.
Qed.

(** C3, as the code has it.  For a candidate document the coordination
    factor is the number of query tokens, each occurrence counted, for which
    the document holds a posting, over the number of query tokens, each
    occurrence counted. *)
Theorem queryCoordination_counts_occurrences
    (tokenizeNormalize : string -> list string)
    (st : NodeSearch) (query : string) (documentId : string) :
  let tokenizedQuery := tokenizeNormalize query in
  In documentId (obj_keys (scoreDocuments st tokenizedQuery)) ->
  queryCoordination st tokenizedQuery documentId
  = Fin (INR (length (List.filter (tokenInDocument st documentId) tokenizedQuery))
         / INR (length tokenizedQuery)).
Proof.
  intros q Hd. unfold queryCoordination. rewrite count_matching. simpl.
  apply jdiv_Fin. apply candidate_matches in Hd. destruct Hd as (t & Ht & _).
  destruct q; [destruct Ht |]. apply not_0_INR. simpl. lia.
Qed.

(** ** The scores of a query *)

Lemma scoreToken_NoDup (st : NodeSearch) (record : obj (list posting))
    (scores : obj jsnum) :
  NoDup (obj_keys scores) -> NoDup (obj_keys (scoreToken st scores record)).
Proof.
  unfold scoreToken. revert scores.
  induction record as [| [d ps] record IH]; intros scores Hnd; simpl.
  - exact Hnd.
  - apply IH. destruct (obj_get scores d); apply obj_set_NoDup, Hnd.
Qed.

Lemma scoreDocuments_NoDup (st : NodeSearch) (q : list string) :
  NoDup (obj_keys (scoreDocuments st q)).
Proof.
  unfold scoreDocuments.
  assert (NoDup (obj_keys (@nil (string * jsnum)))) as Hnil by constructor.
  revert Hnil. generalize (@nil (string * jsnum)) as scores.
  induction q as [| token q IH]; intros scores Hnd; simpl.
  - exact Hnd.
  - apply IH. destruct (obj_get (invertedIndex st) token); [| exact Hnd].
    apply scoreToken_NoDup, Hnd.
Qed.

Lemma obj_get_middle {V : Type} (done todo : obj V) (k : string) (v : V) :
  ~ In k (obj_keys done) -> obj_get (done ++ (k, v) :: todo) k = Some v.
Proof.
  induction done as [| [k0 v0] done IH]; simpl; intros Hk.
  - rewrite String.eqb_refl. reflexivity.
  - destruct (String.eqb k k0) eqn:E.
    + apply String.eqb_eq in E. subst. tauto.
    + apply IH. tauto.
Qed.

Lemma obj_set_middle {V : Type} (done todo : obj V) (k : string) (v v' : V) :
  ~ In k (obj_keys done) ->
  obj_set (done ++ (k, v) :: todo) k v' = done ++ (k, v') :: todo.
Proof.
  induction done as [| [k0 v0] done IH]; simpl; intros Hk.
  - rewrite String.eqb_refl. reflexivity.
  - destruct (String.eqb k k0) eqn:E.
    + apply String.eqb_eq in E. subst. tauto.
    + rewrite IH by tauto. reflexivity.
Qed.

(** The loop of [search] multiplies every raw score once, by the
    normalization of the query and the coordination of its document. *)
Lemma rescale_map (st : NodeSearch) (q : list string) (idfs : list jsnum)
    (norm : jsnum) (results : obj jsnum) :
  queryNormalization idfs = Some norm ->
  NoDup (obj_keys results) ->
  rescale st q idfs results = Some (map (rescaled st q norm) results).
Proof.
  intros Hnorm Hnd. unfold rescale. rewrite Hnorm.
  match goal with |- fold_left ?f _ _ = _ => set (step := f) end.
  assert (forall todo done,
    NoDup (obj_keys (done ++ todo)) ->
    fold_left step (obj_keys todo) (Some (done ++ todo))
    = Some (done ++ map (rescaled st q norm) todo)) as H.
  { induction todo as [| [k s] todo IH]; intros done Hdone.
    - reflexivity.
    - assert (~ In k (obj_keys done)) as Hk.
      { unfold obj_keys in Hdone |- *. rewrite map_app in Hdone. simpl in Hdone.
        apply NoDup_app in Hdone as (_ & Hdisjoint & _).
        intros Hin. apply list_elem_of_In in Hin.
        apply (Hdisjoint k Hin). constructor. }
      change (fold_left step (obj_keys ((k, s) :: todo)) (Some (done ++ (k, s) :: todo)))
        with (fold_left step (obj_keys todo) (step (Some (done ++ (k, s) :: todo)) k)).
      assert (step (Some (done ++ (k, s) :: todo)) k
              = Some (done ++ rescaled st q norm (k, s) :: todo)) as ->.
      { unfold step, scoreAt. rewrite (obj_get_middle done todo k s Hk).
        rewrite (obj_set_middle done todo k s _ Hk). reflexivity. }
      specialize (IH (done ++ [rescaled st q norm (k, s)])).
      rewrite <- !app_assoc in IH. simpl in IH. simpl.
      apply IH. unfold obj_keys in Hdone |- *. rewrite !map_app in *. exact Hdone. }
  apply (H results []). exact Hnd.
Qed.

(** [search] throws nothing: its scores are the rescaled raw scores. *)
Lemma finalScores_value (tokenizeNormalize : string -> list string)
    (st : NodeSearch) (query : string) :
  let q := tokenizeNormalize query in
  finalScores tokenizeNormalize st query =
    match queryNormalization (map (inverseDocumentFrequency st) q) with
    | Some norm => Some (map (rescaled st q norm) (scoreDocuments st q))
    | None => Some []
    end.
Proof.
  intros q. unfold Bak.finalScores. fold q.
  destruct (queryNormalization (map (inverseDocumentFrequency st) q)) as [norm |] eqn:E.
  - apply rescale_map; [exact E | apply scoreDocuments_NoDup].
  - destruct q; [reflexivity | discriminate].
Qed.

(** ** The ranking *)




End BakScoring.

(** ** What the calls keep true *)

Section BakInvariant.
Import Bak.

Lemma wellFormed_constructor : wellFormed constructor.
Proof. split; simpl; intros; discriminate. Qed.

Lemma posting_ok_boosts (st st' : NodeSearch) (p : posting) :
  (forall i b, arr_get (fieldBoosts st) i = Some b ->
               exists b', arr_get (fieldBoosts st') i = Some b') ->
  posting_ok st p -> posting_ok st' p.
Proof.
  intros Hb (H1 & H2 & H3 & i & b & Hi & Hget).
  destruct (Hb i b Hget) as [b' Hb'].
  repeat split; try assumption. exists i, b'. auto.
Qed.

(** A change of the boosts and of the fields that keeps what is defined
    keeps the invariant, when the index is the same and the documents stay. *)
Lemma wellFormed_frame (st st' : NodeSearch) :
  invertedIndex st' = invertedIndex st ->
  (forall d, In d (obj_keys (documentStore st)) -> In d (obj_keys (documentStore st'))) ->
  (forall i b, arr_get (fieldBoosts st) i = Some b ->
               exists b', arr_get (fieldBoosts st') i = Some b') ->
  (forall field i, obj_get (fields st') field = Some i ->
                   exists b, arr_get (fieldBoosts st') i = Some b) ->
  wellFormed st -> wellFormed st'.
Proof.
  intros Hidx Hdocs Hboosts Hfields [Hwf _]. split; [| exact Hfields].
  intros token record Hrec. rewrite Hidx in Hrec.
  destruct (Hwf token record Hrec) as [Hnd Hps]. split; [exact Hnd |].
  intros d ps Hin. destruct (Hps d ps Hin) as [Hd Hok]. split; [auto |].
  eapply List.Forall_impl; [| exact Hok]. intros p. apply posting_ok_boosts, Hboosts.
Qed.

Lemma wellFormed_withDocument st documentId doc :
  wellFormed st -> wellFormed (withDocument st documentId doc).
Proof.
  intros Hwf. apply (wellFormed_frame st); simpl; eauto.
  - intros d Hd. rewrite obj_keys_set. destruct (obj_has _ _); [exact Hd |].
    apply in_or_app. auto.
  - apply Hwf.
Qed.

Lemma registerField_fields st field :
  (exists i, obj_get (fields (registerField st field)) field = Some i) /\
  (forall g i, obj_get (fields st) g = Some i ->
               obj_get (fields (registerField st field)) g = Some i).
Proof.
  unfold registerField, obj_has.
  destruct (obj_get (fields st) field) as [i |] eqn:E; simpl.
  - eauto.
  - split; [rewrite obj_get_set_eq; eauto |].
    intros g i Hg. rewrite obj_get_set.
    destruct (String.eqb g field) eqn:Eg; [| exact Hg].
    apply String.eqb_eq in Eg. subst g. congruence.
Qed.

Lemma wellFormed_registerField st field :
  wellFormed st -> wellFormed (registerField st field).
Proof.
  intros Hwf. apply (wellFormed_frame st); try apply registerField_frame.
  - destruct (registerField_frame st field) as [_ ->]. auto.
  - unfold registerField. destruct (obj_has (fields st) field); simpl; [eauto |].
    intros i b Hi.
    destruct (arr_get (fieldBoosts st) (fieldsCount st)) as [b0 |];
      [destruct (Req_dec_T b0 0) |]; eauto using arr_set_defined.
  - unfold registerField, obj_has.
    destruct (obj_get (fields st) field) as [i0 |] eqn:E; simpl; [apply Hwf |].
    intros g i. rewrite obj_get_set.
    destruct (String.eqb g field).
    + intros [= <-].
      destruct (arr_get (fieldBoosts st) (fieldsCount st)) as [b0 |] eqn:Eb.
      * destruct (Req_dec_T b0 0); [| eauto].
        rewrite arr_get_set, Nat.eqb_refl. eauto.
      * rewrite arr_get_set, Nat.eqb_refl. eauto.
    + intros Hg. destruct Hwf as [_ Hf]. destruct (Hf g i Hg) as [b Hb].
      destruct (arr_get (fieldBoosts st) (fieldsCount st)) as [b0 |];
        [destruct (Req_dec_T b0 0) |]; eauto using arr_set_defined.
  - exact Hwf.
Qed.

Lemma tokenizeFields_wellFormed tokenizeNormalize st doc :
  wellFormed st ->
  wellFormed (fst (tokenizeFields tokenizeNormalize st doc)) /\
  forall field tokens,
    In (field, tokens) (snd (tokenizeFields tokenizeNormalize st doc)) ->
    exists i, obj_get (fields (fst (tokenizeFields tokenizeNormalize st doc))) field = Some i.
Proof.
  unfold tokenizeFields.
  match goal with |- context [fold_left ?f doc _] => set (step := f) end.
  assert (forall acc,
    wellFormed (fst acc) ->
    (forall field tokens, In (field, tokens) (snd acc) ->
       exists i, obj_get (fields (fst acc)) field = Some i) ->
    wellFormed (fst (fold_left step doc acc)) /\
    forall field tokens, In (field, tokens) (snd (fold_left step doc acc)) ->
       exists i, obj_get (fields (fst (fold_left step doc acc))) field = Some i) as H.
  { induction doc as [| [f v] doc IH]; intros acc Hwf Hreg; simpl; [auto |].
    apply IH.
    - unfold step. simpl. destruct v; simpl; apply wellFormed_registerField, Hwf.
    - destruct (registerField_fields (fst acc) f) as [[i Hi] Hkeep].
      assert (forall field tokens, In (field, tokens) (snd acc) ->
                exists i, obj_get (fields (registerField (fst acc) f)) field = Some i) as Hold.
      { intros field tokens Hin. destruct (Hreg field tokens Hin) as [j Hj]. eauto. }
      unfold step. simpl. destruct v; simpl; try exact Hold.
      intros field tokens Hin. apply obj_set_In in Hin.
      destruct Hin as [Hin | [-> _]]; eauto. }
  intros Hwf. apply (H (st, [])); [exact Hwf |]. intros ? ? [].
Qed.

Lemma workItems_In tokenizedDocument field tokens token :
  In (field, tokens, token) (workItems tokenizedDocument) ->
  In (field, tokens) tokenizedDocument /\ In token tokens.
Proof.
  unfold workItems. rewrite in_flat_map. intros ([f toks] & Hin & Hitem).
  simpl in Hitem. rewrite in_map_iff in Hitem. destruct Hitem as (t & [= <- <- <-] & Ht).
  auto.
Qed.

Lemma makePosting_ok st field tokens token i :
  wellFormed st ->
  documentStore st <> [] ->
  obj_get (fields st) field = Some i ->
  In token tokens ->
  posting_ok st (makePosting st field tokens token).
Proof.
  intros [_ Hfields] Hdocs Hfield Htoken. unfold posting_ok, makePosting. simpl.
  split; [apply termFrequency_finite | split; [| split]].
  - rewrite inverseDocumentFrequency_value by exact Hdocs. apply finite_Fin.
  - rewrite fieldLengthNormalization_value; [apply finite_Fin |].
    destruct tokens; [destruct Htoken | discriminate].
  - destruct (Hfields field i Hfield) as [b Hb]. eauto.
Qed.

Lemma wellFormed_insertPosting st index' token documentId p :
  wellFormed st ->
  In documentId (obj_keys (documentStore st)) ->
  posting_ok st p ->
  index' = insertPosting (invertedIndex st) token documentId p ->
  wellFormed
    {| invertedIndex := index';
       documentStore := documentStore st;
       fields := fields st;
       fieldsCount := fieldsCount st;
       fieldBoosts := fieldBoosts st;
       fieldBoosts_undefined := fieldBoosts_undefined st |}.
Proof.
  intros [Hidx Hfields] Hdoc Hp ->. split; [| exact Hfields]. simpl.
  change (posting_ok _) with (posting_ok st).
  intros token' record'. unfold insertPosting.
  destruct (obj_get (invertedIndex st) token) as [record |] eqn:E.
  - assert (forall ps',
      (forall ps, obj_get record documentId = Some ps -> Forall (posting_ok st) ps') ->
      (obj_get record documentId = None -> Forall (posting_ok st) ps') ->
      obj_get (obj_set (invertedIndex st) token (obj_set record documentId ps')) token'
        = Some record' ->
      NoDup (obj_keys record') /\
      forall d ps, In (d, ps) record' ->
        In d (obj_keys (documentStore st)) /\ Forall (posting_ok st) ps) as Hcase.
    { intros ps' Hsome Hnone. rewrite obj_get_set.
      destruct (String.eqb token' token); [| apply Hidx].
      intros [= <-]. destruct (Hidx token record E) as [Hnd Hps].
      split; [apply obj_set_NoDup, Hnd |].
      intros d ps Hin. apply obj_set_In in Hin. destruct Hin as [Hin | [-> ->]]; [auto |].
      split; [exact Hdoc |].
      destruct (obj_get record documentId) eqn:Eg; eauto. }
    destruct (obj_get record documentId) as [ps0 |] eqn:Eg; apply Hcase.
    + intros ps [= <-]. apply Forall_app. split; [| constructor; [exact Hp | constructor]].
      apply obj_get_Some_In in Eg. apply (Hidx token record E) in Eg. apply Eg.
    + discriminate.
    + discriminate.
    + intros _. constructor; [exact Hp | constructor].
  - rewrite obj_get_set. destruct (String.eqb token' token); [| apply Hidx].
    intros [= <-]. split.
    + simpl. apply NoDup_singleton.
    + intros d ps [[= <- <-] | []]. split; [exact Hdoc |].
      constructor; [exact Hp | constructor].
Qed.


Lemma wellFormed_indexItem stopwords documentId st field tokens token i :
  wellFormed st ->
  In documentId (obj_keys (documentStore st)) ->
  obj_get (fields st) field = Some i ->
  In token tokens ->
  wellFormed (indexItem stopwords documentId st (field, tokens, token)).
Proof.
  intros Hwf Hdoc Hfield Htoken. unfold indexItem, indexToken. simpl.
  destruct (existsb (String.eqb token) stopwords); [exact Hwf |].
  eapply wellFormed_insertPosting; try reflexivity; try assumption.
  eapply makePosting_ok; eauto using In_keys_nonempty.
Qed.

Lemma wellFormed_indexItems stopwords documentId items st :
  wellFormed st ->
  In documentId (obj_keys (documentStore st)) ->
  (forall field tokens token, In (field, tokens, token) items ->
     In token tokens /\ exists i, obj_get (fields st) field = Some i) ->
  wellFormed (fold_left (indexItem stopwords documentId) items st).
Proof.
  revert st. induction items as [| [[f toks] t] items IH]; intros st Hwf Hdoc Hitems; simpl.
  - exact Hwf.
  - destruct (Hitems f toks t (or_introl eq_refl)) as [Ht [i Hi]].
    destruct (indexItem_frame stopwords documentId st (f, toks, t)) as (Hd & Hf & _).
    apply IH.
    + eapply wellFormed_indexItem; eauto.
    + rewrite Hd. exact Hdoc.
    + intros field tokens token Hin. rewrite Hf. apply Hitems. right. exact Hin.
Qed.

Lemma wellFormed_addDocument tokenizeNormalize stopwords JSON_stringify md5 st doc :
  wellFormed st ->
  wellFormed (addDocument tokenizeNormalize stopwords JSON_stringify md5 st doc).
Proof.
  intros Hwf. rewrite addDocument_items.
  set (documentId := documentIdOf JSON_stringify md5 doc).
  pose proof (wellFormed_withDocument st documentId doc Hwf) as Hwf1.
  destruct (tokenizeFields_wellFormed tokenizeNormalize _ doc Hwf1) as [Hwf2 Hreg].
  destruct (tokenizeFields_frame tokenizeNormalize (withDocument st documentId doc) doc)
    as [_ Hdocs].
  apply wellFormed_indexItems.
  - exact Hwf2.
  - rewrite Hdocs. simpl. rewrite obj_keys_set.
    destruct (obj_has (documentStore st) documentId) eqn:E.
    + apply obj_has_In, E.
    + apply in_or_app. right. left. reflexivity.
  - intros field tokens token Hin. apply workItems_In in Hin. destruct Hin as [Hf Ht].
    split; [exact Ht | eapply Hreg; exact Hf].
Qed.

Lemma wellFormed_addFieldBoosts st boosts :
  wellFormed st -> wellFormed (addFieldBoosts st boosts).
Proof.
  unfold addFieldBoosts. revert st.
  induction boosts as [| [f b] boosts IH]; intros st Hwf; simpl; [exact Hwf |].
  apply IH. destruct (obj_get (fields st) f) as [id |].
  - apply (wellFormed_frame st); simpl; auto.
    + intros i b0. apply arr_set_defined.
    + intros field i Hfield. destruct Hwf as [_ Hf].
      destruct (Hf field i Hfield) as [b0 Hb0]. eapply arr_set_defined, Hb0.
  - apply (wellFormed_frame st); simpl; eauto. apply Hwf.
Qed.

(** Every engine built by calls is well formed. *)
Lemma wellFormed_after tokenizeNormalize stopwords JSON_stringify md5 calls :
  wellFormed (after tokenizeNormalize stopwords JSON_stringify md5 calls).
Proof.
  unfold after. generalize wellFormed_constructor. generalize constructor as st.
  induction calls as [| c calls IH]; intros st Hwf; simpl; [exact Hwf |].
  apply IH. destruct c; simpl.
  - apply wellFormed_addDocument, Hwf.
  - apply wellFormed_addFieldBoosts, Hwf.
Qed.

(** ** The scores of a well-formed engine are numbers *)





(** The documents that hold a token are stored documents: the document
    frequency is at most the number of documents. *)
Lemma numDocumentsContainTerm_le st token :
  wellFormed st ->
  numDocumentsContainTerm st token <= length (obj_keys (documentStore st)).
Proof.
  intros [Hidx _]. unfold numDocumentsContainTerm.
  destruct (obj_get (invertedIndex st) token) as [record |] eqn:E; [| lia].
  destruct (Hidx token record E) as [Hnd Hps].
  apply submseteq_length, NoDup_submseteq; [exact Hnd |].
  intros d Hd. apply list_elem_of_In in Hd. apply list_elem_of_In.
  unfold obj_keys in Hd. rewrite in_map_iff in Hd. destruct Hd as ([d' ps] & <- & Hin).
  apply (Hps d' ps Hin).
Qed.





(** The keys of the final scores are the candidates. *)
Lemma finalScores_keys tokenizeNormalize st query results :
  finalScores tokenizeNormalize st query = Some results ->
  obj_keys results = obj_keys (scoreDocuments st (tokenizeNormalize query)).
Proof.
  rewrite finalScores_value. simpl.
  destruct (queryNormalization _) as [norm |] eqn:E; intros [= <-].
  - unfold obj_keys. rewrite map_map. reflexivity.
  - destruct (tokenizeNormalize query); [reflexivity | discriminate].
Qed.



End BakInvariant.

(** ** The in-memory engine on the examples *)

Section BakExamples.
Import Bak Examples.



Lemma bak_add_cooking :
  let documentId := documentIdOf serialize digest doc_cooking in
  exists p,
    invertedIndex (bak_add constructor doc_cooking) = [("cooking", [(documentId, [p])])] /\
    documentStore (bak_add constructor doc_cooking) = [(documentId, doc_cooking)].
Proof.
  intros documentId. eexists. split; reflexivity.
Qed.

Lemma idf_cooking :
  inverseDocumentFrequency (bak_add constructor doc_cooking) "cooking"
  = Fin (1 + ln (1 / 2)).
Proof.
  rewrite inverseDocumentFrequency_value by discriminate.
  simpl. replace (1 / (1 + 1))%R with (1 / 2)%R by lra. reflexivity.
Qed.

(** C2 on one stored document [{title: "cooking"}] and the query
    ["cooking"].  The only query IDF is [x = 1 + ln(1/2)]; the code
    normalizes by [1 / sqrt(x)], the sum of the squared IDFs gives
    [1 / sqrt(x * x)], and the two differ. *)
Theorem queryNormalization_takes_square_roots :
  let st := bak_add constructor doc_cooking in
  let tokenizedQuery := words "cooking" in
  let queryIdfs := map (inverseDocumentFrequency st) tokenizedQuery in
  let idf := (1 + ln (1 / 2))%R in
  obj_keys (scoreDocuments st tokenizedQuery) = [documentIdOf serialize digest doc_cooking] /\
  queryIdfs = [Fin idf] /\
  queryNormalization queryIdfs = Some (Fin (1 / sqrt idf)) /\
  Spec.queryNormalization [idf] = Fin (1 / sqrt (idf * idf)) /\
  queryNormalization queryIdfs <> Some (Spec.queryNormalization [idf]).
Proof.
  intros st tokenizedQuery queryIdfs idf.
  assert (0 < idf < 1)%R as Hidf.
  { unfold idf. replace (1 / 2)%R with (/ 2)%R by lra. rewrite ln_Rinv by lra.
    pose proof ln_2_bounds. lra. }
  assert (queryIdfs = [Fin idf]) as Hq.
  { unfold queryIdfs, tokenizedQuery. change (words "cooking") with ["cooking"].
    simpl. unfold st. rewrite idf_cooking. reflexivity. }
  assert (queryNormalization queryIdfs = Some (Fin (1 / sqrt idf))) as Hnorm.
  { rewrite Hq. simpl. rewrite jsqrt_Fin by lra. rewrite jdiv_Fin; [reflexivity |].
    pose proof (sqrt_lt_R0 idf). lra. }
  split; [reflexivity |]. split; [exact Hq |]. split; [exact Hnorm |].
  split.
  - unfold Spec.queryNormalization, Spec.sumOfSquares. simpl. do 3 f_equal. lra.
  - rewrite Hnorm. unfold Spec.queryNormalization, Spec.sumOfSquares. simpl.
    intros [= H]. replace (idf * idf + 0)%R with (idf * idf)%R in H by lra.
    rewrite sqrt_square in H by lra.
    assert (sqrt idf = idf) as Hs.
    { pose proof (sqrt_lt_R0 idf ltac:(lra)).
      apply Rmult_eq_reg_l with (/ sqrt idf * / idf)%R.
      - field_simplify; [| lra | lra]. unfold Rdiv in H. lra.
      - apply Rmult_integral_contrapositive. split; apply Rinv_neq_0_compat; lra. }
    pose proof (sqrt_def idf ltac:(lra)) as Hd. rewrite Hs in Hd. nra.
Qed.

Lemma scoreDocuments_cooking :
  obj_keys (scoreDocuments (bak_add constructor doc_cooking)
              (words "cooking cooking ideas"))
  = [documentIdOf serialize digest doc_cooking].
Proof. reflexivity. Qed.

(** C3 fails on the query ["cooking cooking ideas"] against the document
    [{title: "cooking"}]: the code counts two matching occurrences out of
    three, the distinct tokens give one out of two. *)
Lemma queryCoordination_repeated_token :
  let st := bak_add constructor doc_cooking in
  let documentId := documentIdOf serialize digest doc_cooking in
  let tokenizedQuery := words "cooking cooking ideas" in
  In documentId (obj_keys (scoreDocuments st tokenizedQuery)) /\
  queryCoordination st tokenizedQuery documentId = Fin (2 / 3) /\
  Spec.queryCoordination (tokenInDocument st documentId) tokenizedQuery = Fin (1 / 2) /\
  queryCoordination st tokenizedQuery documentId
  <> Spec.queryCoordination (tokenInDocument st documentId) tokenizedQuery.
Proof.
  intros st documentId tokenizedQuery.
  assert (queryCoordination st tokenizedQuery documentId = Fin (2 / 3)) as Hcode.
  { unfold queryCoordination, of_nat. rewrite jdiv_Fin.
    - change (words "cooking cooking ideas") with ["cooking"; "cooking"; "ideas"].
      simpl. f_equal; lra.
    - apply not_0_INR. discriminate. }
  assert (Spec.queryCoordination (tokenInDocument st documentId) tokenizedQuery
          = Fin (1 / 2)) as Hspec.
  { unfold Spec.queryCoordination, Spec.distinctTokens.
    change (words "cooking cooking ideas") with ["cooking"; "cooking"; "ideas"].
    simpl. f_equal; lra. }
  split; [left; reflexivity |]. split; [exact Hcode |]. split; [exact Hspec |].
  rewrite Hcode, Hspec. intros [= H]. lra.
Qed.

(** C3 as the code has it, on that query and document. *)
Lemma queryCoordination_counts_occurrences_witness :
  let st := bak_add constructor doc_cooking in
  let documentId := documentIdOf serialize digest doc_cooking in
  let tokenizedQuery := words "cooking cooking ideas" in
  In documentId (obj_keys (scoreDocuments st tokenizedQuery)) /\
  queryCoordination st tokenizedQuery documentId
  = Fin (INR (length (List.filter (tokenInDocument st documentId) tokenizedQuery))
         / INR (length tokenizedQuery)).
Proof.
  intros st documentId tokenizedQuery.
  assert (In documentId (obj_keys (scoreDocuments st tokenizedQuery))) as Hcandidate
    by (left; reflexivity).
  split; [exact Hcandidate |].
  exact (queryCoordination_counts_occurrences words st "cooking cooking ideas"
           documentId Hcandidate).
Defined.



End BakExamples.

(** * Facts about the persistent engine *)

Section PersistentErrors.
Import Persistent.

(** ** Exceptions stop at [try ... catch] *)

Lemma returns_ret {A} (a : A) : returns (ret a).
Proof. intros w. exists a, w. reflexivity. Qed.

Lemma returns_console_error (e : error) : returns (console_error e).
Proof. intros w. eexists _, _. reflexivity. Qed.

Lemma returns_bind {A B} (m : io A) (k : A -> io B) :
  returns m -> (forall a, returns (k a)) -> returns (bind m k).
Proof.
  intros Hm Hk w. destruct (Hm w) as (a & w' & E). unfold bind. rewrite E. apply Hk.
Qed.

Lemma returns_try_catch {A} (m : io A) (handler : error -> io A) :
  (forall e, returns (handler e)) -> returns (try_catch m handler).
Proof.
  intros Hh w. unfold try_catch. destruct (m w) as [[a | e] w'].
  - exists a, w'. reflexivity.
  - apply Hh.
Qed.

Lemma returns_for_each {A} (l : list A) (body : A -> io unit) :
  (forall x, returns (body x)) -> returns (for_each l body).
Proof.
  intros Hb. induction l as [| x l IH]; simpl.
  - apply returns_ret.
  - apply returns_bind; [apply Hb | intros _; exact IH].
Qed.

(** The public operations end in [catch (error) { console.error(error) }]. *)
Lemma returns_perform tokenizeNormalize stopwords JSON_stringify md5 policy c :
  returns (perform tokenizeNormalize stopwords JSON_stringify md5 policy c).
Proof.
  destruct c; apply returns_try_catch, returns_console_error.
Qed.

Lemma accounted_ret {A} (a : A) : accounted 0 (ret a).
Proof. intros w. simpl. lia. Qed.

Lemma accounted_throw {A} (e : error) :
  is_IOError e = false -> @accounted A 0 (throw e).
Proof. intros He w. simpl. destruct e; try discriminate; simpl; lia. Qed.

Lemma accounted_console_error (e : error) :
  accounted (if is_IOError e then 1 else 0) (console_error e).
Proof.
  intros w. unfold console_error, pending_failures, logged_failures. simpl.
  rewrite List.filter_app, length_app. simpl. destruct (is_IOError e); simpl; lia.
Qed.

Lemma accounted_bind {A B} (debt : nat) (m : io A) (k : A -> io B) :
  accounted debt m -> (forall a, accounted 0 (k a)) -> accounted debt (bind m k).
Proof.
  intros Hm Hk w. specialize (Hm w). unfold bind.
  destruct (m w) as [[a | e] w']; simpl in *.
  - specialize (Hk a w'). lia.
  - exact Hm.
Qed.

Lemma accounted_try_catch {A} (debt : nat) (m : io A) (handler : error -> io A) :
  accounted debt m ->
  (forall e, accounted (if is_IOError e then 1 else 0) (handler e)) ->
  accounted debt (try_catch m handler).
Proof.
  intros Hm Hh w. specialize (Hm w). unfold try_catch.
  destruct (m w) as [[a | e] w']; simpl in *.
  - exact Hm.
  - specialize (Hh e w'). destruct e; simpl in *; lia.
Qed.

Lemma accounted_for_each {A} (l : list A) (body : A -> io unit) :
  (forall x, accounted 0 (body x)) -> accounted 0 (for_each l body).
Proof.
  intros Hb. induction l as [| x l IH]; simpl.
  - apply accounted_ret.
  - apply accounted_bind; [apply Hb | intros _; exact IH].
Qed.

Lemma accounted_store_op {A} (op : io A) : quiet op -> accounted 0 (store_op op).
Proof.
  intros Hq w. unfold store_op, pending_failures, logged_failures.
  destruct (faults w) as [| [|] fs] eqn:E.
  - destruct (Hq w) as (Hf & Hc & Ht). rewrite Hf, Hc, Ht, E. simpl. lia.
  - simpl. lia.
  - destruct (Hq (set_faults fs w)) as (Hf & Hc & Ht). rewrite Hf, Hc, Ht. simpl. lia.
Qed.

Lemma quiet_pure {A} (f : world -> outcome A) (g : world -> world) :
  (forall w, faults (g w) = faults w /\ console (g w) = console w) ->
  (forall w, thrown_failure (f w) = 0) ->
  quiet (fun w => (f w, g w)).
Proof. intros Hg Hf w. simpl. destruct (Hg w). auto. Qed.

Ltac quiet_op :=
  intros w; simpl;
  repeat match goal with
         | |- context [match ?x with _ => _ end] => destruct x; simpl
         end; auto.

Lemma accounted_store_get_document documentId :
  accounted 0 (store_get_document documentId).
Proof. apply accounted_store_op. quiet_op. Qed.

Lemma accounted_store_put_document documentId text :
  accounted 0 (store_put_document documentId text).
Proof. apply accounted_store_op. quiet_op. Qed.

Lemma accounted_store_del_document documentId :
  accounted 0 (store_del_document documentId).
Proof. apply accounted_store_op. quiet_op. Qed.

Lemma accounted_store_get_token token : accounted 0 (store_get_token token).
Proof. apply accounted_store_op. quiet_op. Qed.

Lemma accounted_store_put_token token r : accounted 0 (store_put_token token r).
Proof. apply accounted_store_op. quiet_op. Qed.

Lemma accounted_store_get_count : accounted 0 store_get_count.
Proof. apply accounted_store_op. quiet_op. Qed.

Lemma accounted_store_put_count policy num :
  accounted 0 (store_put_count policy num).
Proof.
  unfold store_put_count. destruct num as [v |]; [| destruct policy; simpl].
  - apply accounted_store_op. quiet_op.
  - apply accounted_throw. reflexivity.
  - apply accounted_store_op. quiet_op.
  - apply accounted_store_op. quiet_op.
Qed.

(** The handler [catch (error) { console.error(error) }] and the handler
    that answers [null] for an absent key. *)
Lemma accounted_log_handler (e : error) :
  accounted (if is_IOError e then 1 else 0) (console_error e).
Proof. apply accounted_console_error. Qed.

Lemma accounted_absent_handler {A} (e : error) :
  accounted (if is_IOError e then 1 else 0)
    (match e with
     | NotFoundError => ret (@Null A)
     | _ => bind (console_error e) (fun _ => ret Undefined)
     end).
Proof.
  destruct e; simpl; try apply accounted_ret;
    match goal with
    | |- accounted _ (bind (console_error ?e) _) =>
        apply accounted_bind; [exact (accounted_console_error e) | intros; apply accounted_ret]
    end.
Qed.

Lemma accounted__getNumDocuments : accounted 0 _getNumDocuments.
Proof.
  apply accounted_try_catch; [| apply accounted_absent_handler].
  apply accounted_bind; [apply accounted_store_get_count | intros; apply accounted_ret].
Qed.

Lemma accounted__setNumDocuments policy field num :
  accounted 0 (_setNumDocuments policy field num).
Proof.
  apply accounted_try_catch; [apply accounted_store_put_count | apply accounted_log_handler].
Qed.

Lemma accounted__incrementNumDocuments policy num :
  accounted 0 (_incrementNumDocuments policy num).
Proof.
  apply accounted_try_catch; [| apply accounted_log_handler].
  apply accounted_bind; [apply accounted__getNumDocuments |].
  intros. apply accounted__setNumDocuments.
Qed.

Lemma accounted__invertedIndexGetToken token :
  accounted 0 (_invertedIndexGetToken token).
Proof.
  apply accounted_try_catch; [| apply accounted_absent_handler].
  apply accounted_bind; [apply accounted_store_get_token | intros; apply accounted_ret].
Qed.

Lemma accounted__invertedIndexSetToken token r :
  accounted 0 (_invertedIndexSetToken token r).
Proof.
  apply accounted_try_catch; [apply accounted_store_put_token | apply accounted_log_handler].
Qed.

Lemma accounted__invertedIndexInsert token documentId posting :
  accounted 0 (_invertedIndexInsert token documentId posting).
Proof.
  apply accounted_try_catch; [| apply accounted_log_handler].
  apply accounted_bind; [apply accounted__invertedIndexGetToken |].
  intros [parsed | |]; [destruct (obj_get parsed documentId) | |];
    apply accounted__invertedIndexSetToken.
Qed.

Lemma accounted__inverseDocumentFrequency term :
  accounted 0 (_inverseDocumentFrequency term).
Proof.
  apply accounted_try_catch.
  - apply accounted_bind; [apply accounted__getNumDocuments | intros numDocuments].
    apply accounted_bind; [apply accounted__invertedIndexGetToken | intros raw].
    apply accounted_bind; [| intros; apply accounted_ret].
    destruct raw; simpl; try apply accounted_ret. apply accounted_throw. reflexivity.
  - intros e. apply accounted_bind; [apply accounted_console_error | intros; apply accounted_ret].
Qed.

Lemma accounted__indexDocument tokenizeNormalize stopwords documentId doc :
  accounted 0 (_indexDocument tokenizeNormalize stopwords documentId doc).
Proof.
  apply accounted_try_catch; [| apply accounted_log_handler].
  apply accounted_for_each. intros ft. apply accounted_for_each. intros token.
  destruct (existsb (String.eqb token) stopwords); [apply accounted_ret |].
  apply accounted_bind; [apply accounted__inverseDocumentFrequency |].
  intros idf. apply accounted__invertedIndexInsert.
Qed.

Lemma accounted_get documentId : accounted 0 (get documentId).
Proof.
  apply accounted_try_catch; [| apply accounted_absent_handler].
  apply accounted_bind; [apply accounted_store_get_document | intros; apply accounted_ret].
Qed.

Lemma accounted_perform tokenizeNormalize stopwords JSON_stringify md5 policy c :
  accounted 0 (perform tokenizeNormalize stopwords JSON_stringify md5 policy c).
Proof.
  destruct c; simpl.
  - apply accounted_try_catch; [| apply accounted_log_handler].
    apply accounted_bind; [apply accounted_store_put_document | intros _].
    apply accounted_bind; [apply accounted__incrementNumDocuments | intros _].
    apply accounted__indexDocument.
  - apply accounted_try_catch; [| apply accounted_log_handler].
    apply accounted_bind; [apply accounted_get | intros previous].
    apply accounted_store_put_document.
  - apply accounted_try_catch; [| apply accounted_log_handler].
    apply accounted_store_del_document.
Qed.

(** C8, as the code has it.  Whatever the store does, [add], [update] and
    [delete] return normally: a failure of a store operation is caught on the
    way and written to the console, never thrown to the caller.  Counting
    failures, those on the console and those still to come stay the same in
    number. *)
Theorem store_failures_are_logged
    tokenizeNormalize stopwords JSON_stringify md5 policy (c : call) (w : world) :
  exists w',
    perform tokenizeNormalize stopwords JSON_stringify md5 policy c w = (Return tt, w') /\
    logged_failures w' + pending_failures w' = logged_failures w + pending_failures w.
Proof.
  destruct (returns_perform tokenizeNormalize stopwords JSON_stringify md5 policy c w)
    as ([] & w' & E).
  exists w'. split; [exact E |].
  pose proof (accounted_perform tokenizeNormalize stopwords JSON_stringify md5 policy c w)
    as H.
  rewrite E in H. simpl in H. lia.
Qed.

End PersistentErrors.

(** ** The store when nothing fails *)

Section PersistentFrames.
Import Persistent.

Section Keeps.
Variable P : world -> Prop.
Hypothesis P_console : forall f w, P w -> P (set_console f w).

Lemma keeps_ret {A} (a : A) : keeps P (ret a).
Proof. intros w Hw. exact Hw. Qed.

Lemma keeps_throw {A} (e : error) : @keeps A P (throw e).
Proof. intros w Hw. exact Hw. Qed.

Lemma keeps_console_error (e : error) : keeps P (console_error e).
Proof. intros w Hw. apply P_console, Hw. Qed.

Lemma keeps_bind {A B} (m : io A) (k : A -> io B) :
  keeps P m -> (forall a, keeps P (k a)) -> keeps P (bind m k).
Proof.
  intros Hm Hk w Hw. specialize (Hm w Hw). unfold bind.
  destruct (m w) as [[a | e] w']; simpl in *; [apply Hk, Hm | exact Hm].
Qed.

Lemma keeps_try_catch {A} (m : io A) (handler : error -> io A) :
  keeps P m -> (forall e, keeps P (handler e)) -> keeps P (try_catch m handler).
Proof.
  intros Hm Hh w Hw. specialize (Hm w Hw). unfold try_catch.
  destruct (m w) as [[a | e] w']; simpl in *; [exact Hm | apply Hh, Hm].
Qed.

Lemma keeps_for_each {A} (l : list A) (body : A -> io unit) :
  (forall x, keeps P (body x)) -> keeps P (for_each l body).
Proof.
  intros Hb. induction l as [| x l IH]; simpl.
  - apply keeps_ret.
  - apply keeps_bind; [apply Hb | intros _; exact IH].
Qed.

(** Without failures to come, a store operation is the operation itself. *)
Lemma keeps_store_op {A} (op : io A) :
  (forall w, P w -> faults w = []) -> keeps P op -> keeps P (store_op op).
Proof.
  intros Hf Hop w Hw. unfold store_op. rewrite (Hf w Hw). apply Hop, Hw.
Qed.
End Keeps.

Lemma settled_console D c f w : settled D c w -> settled D c (set_console f w).
Proof. intros H. exact H. Qed.

Lemma settled_faults D c w : settled D c w -> faults w = [].
Proof. intros H. apply H. Qed.

Lemma keeps_settled_absent_handler D c {A} (e : error) :
  keeps (settled D c)
    (match e with
     | NotFoundError => ret (@Null A)
     | _ => bind (console_error e) (fun _ => ret Undefined)
     end).
Proof.
  destruct e; try apply keeps_ret;
    (apply keeps_bind; [apply keeps_console_error, settled_console | intros; apply keeps_ret]).
Qed.

Lemma keeps__invertedIndexGetToken D c token :
  keeps (settled D c) (_invertedIndexGetToken token).
Proof.
  apply keeps_try_catch; [| apply keeps_settled_absent_handler].
  apply keeps_bind; [| intros; apply keeps_ret].
  apply keeps_store_op; [apply settled_faults |].
  intros w Hw. simpl. destruct (invertedIndex w !! token); exact Hw.
Qed.

Lemma keeps__invertedIndexSetToken D c token r :
  keeps (settled D c) (_invertedIndexSetToken token r).
Proof.
  apply keeps_try_catch; [| intros; apply keeps_console_error, settled_console].
  apply keeps_store_op; [apply settled_faults |]. intros w Hw. exact Hw.
Qed.

Lemma keeps__getNumDocuments D c : keeps (settled D c) _getNumDocuments.
Proof.
  apply keeps_try_catch; [| apply keeps_settled_absent_handler].
  apply keeps_bind; [| intros; apply keeps_ret].
  apply keeps_store_op; [apply settled_faults |].
  intros w Hw. simpl. destruct (documentCount w); exact Hw.
Qed.

Lemma keeps__indexDocument D c tokenizeNormalize stopwords documentId doc :
  keeps (settled D c) (_indexDocument tokenizeNormalize stopwords documentId doc).
Proof.
  apply keeps_try_catch; [| intros; apply keeps_console_error, settled_console].
  apply keeps_for_each. intros ft. apply keeps_for_each. intros token.
  destruct (existsb (String.eqb token) stopwords); [apply keeps_ret |].
  apply keeps_bind.
  - apply keeps_try_catch.
    + apply keeps_bind; [apply keeps__getNumDocuments | intros numDocuments].
      apply keeps_bind; [apply keeps__invertedIndexGetToken | intros raw].
      apply keeps_bind; [| intros; apply keeps_ret].
      destruct raw; [apply keeps_ret | apply keeps_ret | apply keeps_throw].
    + intros e. apply keeps_bind; [apply keeps_console_error, settled_console |].
      intros; apply keeps_ret.
  - intros idf. apply keeps_try_catch; [| intros; apply keeps_console_error, settled_console].
    apply keeps_bind; [apply keeps__invertedIndexGetToken |].
    intros [parsed | |]; [destruct (obj_get parsed documentId) | |];
      apply keeps__invertedIndexSetToken.
Qed.

(** The count [_incrementNumDocuments] leaves: the value it puts is
    [undefined]. *)
Lemma _incrementNumDocuments_fault_free policy num w :
  faults w = [] ->
  _incrementNumDocuments policy num w
  = (Return tt,
     match undefined_text policy with
     | None => set_console (fun c => c ++ [WriteError]) w
     | Some text => set_documentCount (Some text) w
     end).
Proof.
  intros Hf. unfold _incrementNumDocuments, _getNumDocuments, _setNumDocuments,
    store_get_count, store_put_count, try_catch, bind, store_op, ret, throw, console_error.
  rewrite Hf. destruct (documentCount w); simpl; destruct policy; simpl;
    rewrite ?Hf; reflexivity.
Qed.

(** [add] in a store that does not fail. *)
Lemma add_fault_free tokenizeNormalize stopwords JSON_stringify md5 policy doc w :
  faults w = [] ->
  let w' := snd (add tokenizeNormalize stopwords JSON_stringify md5 policy doc w) in
  documents w'
  = <[_generateDocumentId JSON_stringify md5 doc := JSON_stringify doc]> (documents w) /\
  documentCount w'
  = match undefined_text policy with None => documentCount w | Some text => Some text end /\
  faults w' = [].
Proof.
  intros Hf. unfold add.
  set (documentId := _generateDocumentId JSON_stringify md5 doc).
  set (D := <[documentId := JSON_stringify doc]> (documents w)).
  set (c := match undefined_text policy with
            | None => documentCount w
            | Some text => Some text
            end).
  enough (settled D c (snd (try_catch
            (bind (store_put_document documentId (JSON_stringify doc)) (fun _ =>
             bind (_incrementNumDocuments policy 1) (fun _ =>
             _indexDocument tokenizeNormalize stopwords documentId doc)))
            console_error w))) as H by exact H.
  unfold try_catch, bind at 1, store_put_document, store_op. rewrite Hf.
  set (w1 := set_documents (insert documentId (JSON_stringify doc)) w).
  assert (faults w1 = []) as Hf1 by exact Hf.
  unfold bind. rewrite (_incrementNumDocuments_fault_free policy 1 w1 Hf1).
  match goal with |- context [_indexDocument _ _ _ _ ?w2] => set (w2' := w2) end.
  assert (settled D c w2') as H2.
  { unfold w2', settled, c. destruct policy; simpl; auto. }
  pose proof (keeps__indexDocument D c tokenizeNormalize stopwords documentId doc w2' H2) as H3.
  destruct (_indexDocument tokenizeNormalize stopwords documentId doc w2') as [[[] | e] w3];
    simpl in *; exact H3.
Qed.

End PersistentFrames.

Section PersistentRuns.
Import Persistent.

Lemma bind_Return {A B} (m : io A) (k : A -> io B) (w w' : world) (a : A) :
  m w = (Return a, w') -> bind m k w = k a w'.
Proof. intros E. unfold bind. rewrite E. reflexivity. Qed.

Lemma try_catch_Return {A} (m : io A) (handler : error -> io A) (w w' : world) (a : A) :
  m w = (Return a, w') -> try_catch m handler w = (Return a, w').
Proof. intros E. unfold try_catch. rewrite E. reflexivity. Qed.

Lemma store_op_fault_free {A} (op : io A) (w : world) :
  faults w = [] -> store_op op w = op w.
Proof. intros Hf. unfold store_op. rewrite Hf. reflexivity. Qed.

Lemma store_put_document_fault_free documentId text w :
  faults w = [] ->
  store_put_document documentId text w
  = (Return tt, set_documents (insert documentId text) w).
Proof.
  intros Hf. unfold store_put_document. rewrite store_op_fault_free by exact Hf.
  reflexivity.
Qed.

(** The lookups in a store that does not fail. *)
Lemma _getNumDocuments_fault_free w :
  faults w = [] ->
  _getNumDocuments w
  = (Return (match documentCount w with Some text => Found text | None => Null end), w).
Proof.
  intros Hf. unfold _getNumDocuments, try_catch, bind, store_get_count.
  rewrite store_op_fault_free by exact Hf. destruct (documentCount w); reflexivity.
Qed.

Lemma _invertedIndexGetToken_fault_free token w :
  faults w = [] ->
  _invertedIndexGetToken token w
  = (Return (match invertedIndex w !! token with Some r => Found r | None => Null end), w).
Proof.
  intros Hf. unfold _invertedIndexGetToken, try_catch, bind, store_get_token.
  rewrite store_op_fault_free by exact Hf. destruct (invertedIndex w !! token); reflexivity.
Qed.

Lemma _invertedIndexSetToken_fault_free token r w :
  faults w = [] ->
  _invertedIndexSetToken token r w = (Return tt, set_invertedIndex (insert token r) w).
Proof.
  intros Hf. unfold _invertedIndexSetToken, try_catch, store_put_token.
  rewrite store_op_fault_free by exact Hf. reflexivity.
Qed.

(** [get] in a store that does not fail. *)
Lemma get_fault_free documentId w :
  faults w = [] ->
  get documentId w
  = (Return (match documents w !! documentId with Some text => Found text | None => Null end), w).
Proof.
  intros Hf. unfold get, try_catch, bind, store_get_document.
  rewrite store_op_fault_free by exact Hf. destruct (documents w !! documentId); reflexivity.
Qed.

(** [update] in a store that does not fail: what it writes back is made of
    the characters of the stored text. *)
Lemma update_fault_free JSON_stringify documentId partialUpdatedDocument w :
  faults w = [] ->
  update JSON_stringify documentId partialUpdatedDocument w
  = (Return tt,
     set_documents
       (insert documentId
          (JSON_stringify
             (Object_assign
                (match documents w !! documentId with
                 | Some text => Found text
                 | None => Null
                 end)
                partialUpdatedDocument)))
       w).
Proof.
  intros Hf. unfold update.
  apply try_catch_Return.
  erewrite bind_Return by (apply get_fault_free, Hf).
  unfold store_put_document. rewrite store_op_fault_free by exact Hf. reflexivity.
Qed.

(** The IDF in a store that does not fail. *)
Lemma _inverseDocumentFrequency_fault_free term w :
  faults w = [] ->
  _inverseDocumentFrequency term w
  = (Return
       (Some (jadd (Fin 1)
                (jlog (jdiv
                   (to_number (match documentCount w with
                               | Some text => Found text
                               | None => Null
                               end))
                   (numDocumentsContainTerm_plus_1 (invertedIndex w !! term)))))),
     w).
Proof.
  intros Hf. unfold _inverseDocumentFrequency.
  apply try_catch_Return.
  erewrite bind_Return by (apply _getNumDocuments_fault_free, Hf).
  erewrite bind_Return by (apply _invertedIndexGetToken_fault_free, Hf).
  destruct (invertedIndex w !! term); reflexivity.
Qed.

(** For a token that has an entry in the index the IDF is [NaN], whatever
    the document count: the entry parses to an object, [length] of which is
    [undefined]. *)
Lemma _inverseDocumentFrequency_seen term w r :
  faults w = [] ->
  invertedIndex w !! term = Some r ->
  _inverseDocumentFrequency term w = (Return (Some NaN), w).
Proof.
  intros Hf Hr. rewrite _inverseDocumentFrequency_fault_free by exact Hf.
  rewrite Hr. unfold numDocumentsContainTerm_plus_1.
  assert (forall x, jdiv x NaN = NaN) as Hdiv by (intros []; reflexivity).
  destruct (obj_get r "length"); rewrite Hdiv; reflexivity.
Qed.

(** The insertion in a store that does not fail. *)
Lemma _invertedIndexInsert_fault_free token documentId posting w :
  faults w = [] ->
  _invertedIndexInsert token documentId posting w
  = (Return tt,
     set_invertedIndex
       (insert token
          (match invertedIndex w !! token with
           | Some parsed =>
               match obj_get parsed documentId with
               | Some postings =>
                   obj_set parsed documentId (postings ++ [map to_json posting])
               | None => obj_set parsed documentId [map to_json posting]
               end
           | None => [(documentId, [map to_json posting])]
           end))
       w).
Proof.
  intros Hf. unfold _invertedIndexInsert.
  apply try_catch_Return.
  erewrite bind_Return by (apply _invertedIndexGetToken_fault_free, Hf).
  destruct (invertedIndex w !! token) as [parsed |].
  - destruct (obj_get parsed documentId) eqn:E;
      rewrite _invertedIndexSetToken_fault_free by exact Hf; unfold record, Persistent.posting in *;
      rewrite ?E; reflexivity.
  - apply _invertedIndexSetToken_fault_free, Hf.
Qed.

(** C6. In a store that does not fail: documents with the same serialized
    content get the same identifier, and after both are added the store
    holds what it held after the first, one document under that identifier;
    documents with different serialized content get different identifiers
    unless their digests collide, and the store then holds both. *)
Theorem add_by_content tokenizeNormalize stopwords JSON_stringify md5 policy
    (d1 d2 : document) (w : world) :
  let id1 := _generateDocumentId JSON_stringify md5 d1 in
  let id2 := _generateDocumentId JSON_stringify md5 d2 in
  let w1 := snd (add tokenizeNormalize stopwords JSON_stringify md5 policy d1 w) in
  let w2 := snd (add tokenizeNormalize stopwords JSON_stringify md5 policy d2 w1) in
  faults w = [] ->
  (JSON_stringify d1 = JSON_stringify d2 ->
     id1 = id2 /\
     documents w2 = documents w1 /\
     documents w2 = <[id1 := JSON_stringify d1]> (documents w)) /\
  (JSON_stringify d1 <> JSON_stringify d2 ->
     (md5 (JSON_stringify d1) = md5 (JSON_stringify d2) ->
        JSON_stringify d1 = JSON_stringify d2) ->
     id1 <> id2 /\
     documents w2 !! id1 = Some (JSON_stringify d1) /\
     documents w2 !! id2 = Some (JSON_stringify d2)).
Proof.
  intros id1 id2 w1 w2 Hf.
  destruct (add_fault_free tokenizeNormalize stopwords JSON_stringify md5 policy d1 w Hf)
    as (Hd1 & _ & Hf1). fold w1 id1 in Hd1, Hf1.
  destruct (add_fault_free tokenizeNormalize stopwords JSON_stringify md5 policy d2 w1 Hf1)
    as (Hd2 & _ & _). fold w2 id2 in Hd2.
  split.
  - intros Hsame.
    assert (id1 = id2) as Hid by (unfold id1, id2, _generateDocumentId; rewrite Hsame; reflexivity).
    split; [exact Hid |].
    rewrite Hd2, Hd1, <- Hid, <- Hsame, insert_insert_eq. auto.
  - intros Hdiff Hcollision.
    assert (id1 <> id2) as Hid.
    { unfold id1, id2, _generateDocumentId. intros Heq. apply Hdiff, Hcollision, Heq. }
    split; [exact Hid |]. rewrite Hd2, Hd1. split.
    + rewrite lookup_insert_ne by congruence. apply lookup_insert_eq.
    + apply lookup_insert_eq.
Qed.

Lemma delete_fault_free documentId w :
  faults w = [] ->
  delete documentId w = (Return tt, set_documents (base.delete documentId) w).
Proof.
  intros Hf. unfold delete. apply try_catch_Return.
  unfold store_del_document. rewrite store_op_fault_free by exact Hf. reflexivity.
Qed.

(** In a store that does not fail no call writes a number under
    [DocumentCount]: the key keeps its value or gets the text written for
    [undefined]. *)
Lemma perform_count tokenizeNormalize stopwords JSON_stringify md5 policy c w :
  faults w = [] ->
  let w' := snd (perform tokenizeNormalize stopwords JSON_stringify md5 policy c w) in
  faults w' = [] /\
  (documentCount w' = documentCount w \/
   documentCount w' = Some "undefined" \/ documentCount w' = Some "").
Proof.
  intros Hf. destruct c as [doc | documentId partialUpdatedDocument | documentId]; simpl.
  - destruct (add_fault_free tokenizeNormalize stopwords JSON_stringify md5 policy doc w Hf)
      as (_ & Hc & Hf'). split; [exact Hf' |]. rewrite Hc. destruct policy; auto.
  - rewrite update_fault_free by exact Hf. simpl. auto.
  - rewrite delete_fault_free by exact Hf. simpl. auto.
Qed.

(** [update] on an identifier that is not stored writes a document and
    leaves the count alone. *)
Lemma update_of_absent JSON_stringify documentId partialUpdatedDocument :
  let w := snd (update JSON_stringify documentId partialUpdatedDocument (empty_world [])) in
  size (documents w) = 1 /\ documentCount w = None.
Proof.
  intros w. unfold w. rewrite update_fault_free by reflexivity. simpl.
  rewrite map_size_insert_None by apply lookup_empty.
  rewrite map_size_empty. auto.
Qed.

(** C10 on the first [add] in the empty store, whatever the document.  The
    store then holds one document, and the value under [DocumentCount] is
    not [1]: [_setNumDocuments] puts its second parameter, which is
    [undefined], so the key stays absent (a count of [0]) or holds the text
    ["undefined"] (not a number) or the empty text (a count of [0]); one
    document is more than any of these. *)
Theorem add_does_not_count tokenizeNormalize stopwords JSON_stringify md5
    (policy : undefined_put) (doc : document) :
  let w := snd (add tokenizeNormalize stopwords JSON_stringify md5 policy doc
                    (empty_world [])) in
  size (documents w) = 1 /\
  documentCount w = undefined_text policy /\
  count_number w = (match policy with AsText => NaN | _ => Fin 0 end) /\
  jleb (of_nat (size (documents w))) (count_number w) = false.
Proof.
  intros w.
  destruct (add_fault_free tokenizeNormalize stopwords JSON_stringify md5 policy doc
              (empty_world []) eq_refl) as (Hd & Hc & _).
  fold w in Hd, Hc. simpl in Hd, Hc.
  assert (size (documents w) = 1) as Hsize.
  { rewrite Hd, map_size_insert_None by apply lookup_empty.
    rewrite map_size_empty. reflexivity. }
  assert (count_number w = (match policy with AsText => NaN | _ => Fin 0 end)) as Hn.
  { unfold count_number. rewrite Hc. destruct policy; reflexivity. }
  split; [exact Hsize |]. split; [rewrite Hc; destruct policy; reflexivity |].
  split; [exact Hn |]. rewrite Hsize, Hn.
  destruct policy; try reflexivity;
    unfold jleb, of_nat; simpl; destruct (Rle_dec 1 0) as [H | _]; lra || reflexivity.
Qed.

End PersistentRuns.

(** ** The postings the engine writes *)

Section PersistentPostings.
Import Persistent.

Section Ensures.
Variable P : world -> Prop.
Hypothesis P_console : forall f w, P w -> P (set_console f w).
Hypothesis P_faults : forall fs w, P w -> P (set_faults fs w).

Lemma ensures_ret {A} (a : A) (Q : A -> Prop) : Q a -> ensures P (ret a) Q.
Proof. intros Ha w Hw. split; [exact Hw | exact Ha]. Qed.

Lemma ensures_throw {A} (e : error) (Q : A -> Prop) : ensures P (throw e) Q.
Proof. intros w Hw. split; [exact Hw | exact I]. Qed.

Lemma ensures_console_error (e : error) (Q : unit -> Prop) :
  Q tt -> ensures P (console_error e) Q.
Proof. intros HQ w Hw. split; [apply P_console, Hw | exact HQ]. Qed.

Lemma ensures_bind {A B} (m : io A) (k : A -> io B) (Q : A -> Prop) (Q' : B -> Prop) :
  ensures P m Q -> (forall a, Q a -> ensures P (k a) Q') -> ensures P (bind m k) Q'.
Proof.
  intros Hm Hk w Hw. destruct (Hm w Hw) as [Hw' Ha]. unfold bind.
  destruct (m w) as [[a | e] w']; simpl in *.
  - apply (Hk a Ha w' Hw').
  - auto.
Qed.

Lemma ensures_try_catch {A} (m : io A) (handler : error -> io A) (Q : A -> Prop) :
  ensures P m Q -> (forall e, ensures P (handler e) Q) ->
  ensures P (try_catch m handler) Q.
Proof.
  intros Hm Hh w Hw. destruct (Hm w Hw) as [Hw' Ha]. unfold try_catch.
  destruct (m w) as [[a | e] w']; simpl in *.
  - auto.
  - apply (Hh e w' Hw').
Qed.

Lemma ensures_for_each {A} (l : list A) (body : A -> io unit) :
  (forall x, ensures P (body x) (fun _ => True)) ->
  ensures P (for_each l body) (fun _ => True).
Proof.
  intros Hb. induction l as [| x l IH]; simpl.
  - apply ensures_ret. exact I.
  - eapply ensures_bind; [apply Hb | intros _ _; exact IH].
Qed.

Lemma ensures_store_op {A} (op : io A) (Q : A -> Prop) :
  ensures P op Q -> ensures P (store_op op) Q.
Proof.
  intros Hop w Hw. unfold store_op. destruct (faults w) as [| [|] fs].
  - apply Hop, Hw.
  - simpl. split; [apply P_faults, Hw | exact I].
  - apply Hop, P_faults, Hw.
Qed.

End Ensures.

Lemma threeComponentIndex_console f w :
  threeComponentIndex w -> threeComponentIndex (set_console f w).
Proof. intros H. exact H. Qed.

Lemma threeComponentIndex_faults fs w :
  threeComponentIndex w -> threeComponentIndex (set_faults fs w).
Proof. intros H. exact H. Qed.

Ltac index_kept :=
  first [ apply threeComponentIndex_console | apply threeComponentIndex_faults ].

(** What is read from the index has three components in each posting. *)
Lemma ensures__invertedIndexGetToken token :
  ensures threeComponentIndex (_invertedIndexGetToken token)
    (fun fetchedRecord =>
       match fetchedRecord with Found r => threeComponents r | _ => True end).
Proof.
  apply ensures_try_catch; try index_kept.
  - eapply ensures_bind; try index_kept.
    + apply ensures_store_op with (Q := threeComponents); try index_kept.
      intros w Hw. simpl. destruct (invertedIndex w !! token) as [r |] eqn:E; simpl.
      * split; [exact Hw | apply (Hw token r E)].
      * auto.
    + intros r Hr. apply ensures_ret. exact Hr.
  - intros e. destruct e;
      try (apply ensures_ret; exact I);
      (eapply ensures_bind; try index_kept;
       [apply ensures_console_error with (Q := fun _ => True); try index_kept; exact I
       | intros _ _; apply ensures_ret; exact I]).
Qed.

(** A record with three-component postings is written back as such. *)
Lemma ensures__invertedIndexSetToken token r :
  threeComponents r ->
  ensures threeComponentIndex (_invertedIndexSetToken token r) (fun _ => True).
Proof.
  intros Hr. apply ensures_try_catch; try index_kept.
  - apply ensures_store_op; try index_kept.
    intros w Hw. simpl. split; [| exact I].
    intros token' r'. simpl. rewrite lookup_insert.
    destruct (decide (token = token')); [intros [= <-]; exact Hr | apply Hw].
  - intros e. apply ensures_console_error; try index_kept. exact I.
Qed.

Lemma threeComponents_set r documentId ps :
  threeComponents r ->
  (forall p, In p ps -> length p = 3) ->
  threeComponents (obj_set r documentId ps).
Proof.
  intros Hr Hps d ps' p Hin Hp. apply obj_set_In in Hin.
  destruct Hin as [Hin | [-> ->]]; [apply (Hr d ps' p Hin Hp) | apply Hps, Hp].
Qed.

Lemma ensures__invertedIndexInsert token documentId posting :
  length posting = 3 ->
  ensures threeComponentIndex (_invertedIndexInsert token documentId posting)
    (fun _ => True).
Proof.
  intros Hlen.
  assert (length (map to_json posting) = 3) as Hjson by (rewrite length_map; exact Hlen).
  apply ensures_try_catch; try index_kept.
  - eapply ensures_bind; try index_kept; [apply ensures__invertedIndexGetToken |].
    intros [parsed | |] Hparsed.
    + destruct (obj_get parsed documentId) as [postings |] eqn:E;
        apply ensures__invertedIndexSetToken, threeComponents_set; try exact Hparsed.
      * intros p Hp. apply in_app_or in Hp. destruct Hp as [Hp | [<- | []]]; [| exact Hjson].
        apply obj_get_Some_In in E. apply (Hparsed _ _ _ E Hp).
      * intros p [<- | []]. exact Hjson.
    + apply ensures__invertedIndexSetToken.
      intros d ps p [[= <- <-] | []] [<- | []]. exact Hjson.
    + apply ensures__invertedIndexSetToken.
      intros d ps p [[= <- <-] | []] [<- | []]. exact Hjson.
  - intros e. apply ensures_console_error; try index_kept. exact I.
Qed.

Ltac ensures_step :=
  first
    [ apply ensures_ret; exact I
    | apply ensures_throw
    | apply ensures_console_error; [index_kept | exact I]
    | apply ensures_try_catch; [| intros ?]
    | eapply ensures_bind with (Q := fun _ => True); [| intros ? _]
    | apply ensures_for_each; intros ?
    | apply ensures_store_op; [index_kept |] ].

(** The operations of the store on other keys leave the postings alone. *)
Lemma ensures_other_key {A} (f : world -> outcome A) (g : world -> world) :
  (forall w, invertedIndex (g w) = invertedIndex w) ->
  ensures threeComponentIndex (fun w => (f w, g w)) (fun _ => True).
Proof.
  intros Hg w Hw. simpl. split; [| destruct (f w); exact I].
  intros token r. rewrite Hg. apply Hw.
Qed.

Lemma ensures_absent_handler {A} (e : error) :
  ensures threeComponentIndex
    (match e with
     | NotFoundError => ret (@Null A)
     | _ => bind (console_error e) (fun _ => ret Undefined)
     end)
    (fun _ => True).
Proof. destruct e; repeat ensures_step. Qed.

Lemma ensures__getNumDocuments :
  ensures threeComponentIndex _getNumDocuments (fun _ => True).
Proof.
  apply ensures_try_catch; [| intros e; apply ensures_absent_handler].
  ensures_step; [| ensures_step]. ensures_step.
  intros w Hw. simpl. destruct (documentCount w); simpl; auto.
Qed.

Lemma ensures__incrementNumDocuments policy num :
  ensures threeComponentIndex (_incrementNumDocuments policy num) (fun _ => True).
Proof.
  ensures_step; [| ensures_step].
  eapply ensures_bind; [apply ensures__getNumDocuments | intros stored _].
  ensures_step; [| ensures_step].
  unfold store_put_count. destruct policy; simpl.
  - ensures_step.
  - ensures_step. apply (ensures_other_key (fun _ => Return tt)). reflexivity.
  - ensures_step. apply (ensures_other_key (fun _ => Return tt)). reflexivity.
Qed.

Lemma ensures__inverseDocumentFrequency term :
  ensures threeComponentIndex (_inverseDocumentFrequency term) (fun _ => True).
Proof.
  ensures_step; [| repeat ensures_step].
  eapply ensures_bind; [apply ensures__getNumDocuments | intros numDocuments _].
  eapply ensures_bind; [apply ensures__invertedIndexGetToken | intros raw _].
  ensures_step; [| ensures_step].
  destruct raw; repeat ensures_step.
Qed.

Lemma ensures__indexDocument tokenizeNormalize stopwords documentId doc :
  ensures threeComponentIndex
    (_indexDocument tokenizeNormalize stopwords documentId doc) (fun _ => True).
Proof.
  ensures_step; [| ensures_step].
  apply ensures_for_each. intros ft. apply ensures_for_each. intros token.
  destruct (existsb (String.eqb token) stopwords); [ensures_step |].
  eapply ensures_bind; [apply ensures__inverseDocumentFrequency | intros idf _].
  apply ensures__invertedIndexInsert. reflexivity.
Qed.

(** Whatever the store does, the postings that a call of [add], [update] or
    [delete] leaves in the index have three components when those it found
    there had. *)
Lemma perform_threeComponents tokenizeNormalize stopwords JSON_stringify md5 policy c :
  ensures threeComponentIndex
    (perform tokenizeNormalize stopwords JSON_stringify md5 policy c) (fun _ => True).
Proof.
  destruct c as [doc | documentId partialUpdatedDocument | documentId]; simpl.
  - ensures_step; [| ensures_step].
    ensures_step.
    + ensures_step. apply (ensures_other_key (fun _ => Return tt)). reflexivity.
    + eapply ensures_bind; [apply ensures__incrementNumDocuments | intros _ _].
      apply ensures__indexDocument.
  - ensures_step; [| ensures_step].
    ensures_step.
    + apply ensures_try_catch; [| intros e; apply ensures_absent_handler].
      ensures_step; [| ensures_step]. ensures_step.
      intros w Hw. simpl. destruct (documents w !! documentId); simpl; auto.
    + ensures_step. apply (ensures_other_key (fun _ => Return tt)). reflexivity.
  - ensures_step; [| ensures_step].
    ensures_step. apply (ensures_other_key (fun _ => Return tt)). reflexivity.
Qed.

(** Every posting that calls of [add], [update] and [delete] write into an
    empty store has three components. *)
Lemma postings_have_three_components
    tokenizeNormalize stopwords JSON_stringify md5 policy calls failures :
  threeComponentIndex
    (fold_left
       (fun w c => snd (perform tokenizeNormalize stopwords JSON_stringify md5 policy c w))
       calls (empty_world failures)).
Proof.
  assert (threeComponentIndex (empty_world failures)) as H0.
  { intros token r. simpl. rewrite lookup_empty. discriminate. }
  revert H0. generalize (empty_world failures) as w.
  induction calls as [| c calls IH]; intros w Hw; simpl; [exact Hw |].
  apply IH. apply (perform_threeComponents tokenizeNormalize stopwords JSON_stringify md5
                     policy c w Hw).
Qed.

End PersistentPostings.

(** ** The persistent engine on the examples *)

Section PersistentExamples.
Import Persistent Examples.

Lemma jlog_zero : jlog (Fin (0 / INR 1)) = NInf.
Proof.
  simpl. unfold jlog. destruct (Rlt_dec (0 / 1) 0) as [H | _]; [lra |].
  destruct (Req_dec_T (0 / 1) 0) as [_ | H]; [reflexivity | lra].
Qed.

Lemma posting_cooking (idf : jsnum) :
  to_json (Some idf) = None ->
  map to_json
    [Some (_termFrequency "cooking" ["cooking"]); Some idf;
     Some (_fieldLengthNormalization ["cooking"])]
  = [Some (sqrt 1)%R; None; Some (1 / sqrt 1)%R].
Proof.
  intros Hidf. unfold _termFrequency, _fieldLengthNormalization.
  cbn [map List.filter String.eqb Ascii.eqb Bool.eqb length].
  rewrite Hidf, jsqrt_of_nat. simpl. rewrite jdiv_Fin by (rewrite sqrt_1; lra).
  reflexivity.
Qed.

(** [add({title: "cooking"})] on the empty store. *)
Lemma add_cooking (policy : undefined_put) :
  let documentId := _generateDocumentId serialize digest doc_cooking in
  Examples.add policy doc_cooking (empty_world [])
  = (Return tt,
     mkWorld
       (<[documentId := serialize doc_cooking]> ∅)
       (<["cooking" := [(documentId, [[Some (sqrt 1)%R; None; Some (1 / sqrt 1)%R]])]]> ∅)
       (undefined_text policy)
       (match policy with Refused => [WriteError] | _ => [] end)
       []).
Proof.
  intros documentId. unfold Examples.add, Persistent.add. fold documentId.
  apply try_catch_Return.
  erewrite bind_Return by (apply store_put_document_fault_free; reflexivity).
  erewrite bind_Return by (apply _incrementNumDocuments_fault_free; reflexivity).
  unfold _indexDocument. apply try_catch_Return.
  change (_tokenizeFields words doc_cooking) with [("title", ["cooking"])].
  simpl for_each.
  erewrite bind_Return; [reflexivity |].
  erewrite bind_Return; [reflexivity |].
  erewrite bind_Return by (apply _inverseDocumentFrequency_fault_free; destruct policy; reflexivity).
  rewrite _invertedIndexInsert_fault_free by (destruct policy; reflexivity).
  cbn [fst snd existsb].
  destruct policy;
    cbn [invertedIndex documentCount set_console set_documentCount set_documents
         empty_world undefined_text]; rewrite lookup_empty.
  - rewrite posting_cooking; [reflexivity |].
    rewrite lookup_empty. cbn [to_number numDocumentsContainTerm_plus_1 Nat.add].
    unfold of_nat. rewrite jdiv_Fin by (simpl; lra). rewrite jlog_zero. reflexivity.
  - rewrite posting_cooking; reflexivity.
  - rewrite posting_cooking; [reflexivity |].
    rewrite ?lookup_empty.
    change (to_number (Found "")) with (Fin 0).
    cbn [numDocumentsContainTerm_plus_1 Nat.add].
    unfold of_nat. rewrite jdiv_Fin by (simpl; lra). rewrite jlog_zero. reflexivity.
Qed.

(** C9 on [add({title: "cooking"})] in the empty store.  The posting
    written has three components, [[sqrt(1), null, 1 / sqrt(1)]]: term
    frequency, IDF (not a number here, so [null] in JSON) and field-length
    normalization; there is no field identifier. *)
Theorem add_writes_three_components (policy : undefined_put) :
  let documentId := _generateDocumentId serialize digest doc_cooking in
  invertedIndex (snd (Examples.add policy doc_cooking (empty_world [])))
  = <["cooking" := [(documentId, [[Some (sqrt 1)%R; None; Some (1 / sqrt 1)%R]])]]> ∅.
Proof. intros documentId. unfold documentId. rewrite add_cooking. reflexivity. Qed.

(** C7 on [add({title: "cooking"})] followed by
    [update(id, {body: "recipes"})].  What [update] merges is the stored
    text, character by character: the document written back has the fields
    ["0"], ["1"], ... and ["body"], and no field ["title"]; the merge of the
    fields would be [{title: "cooking", body: "recipes"}]. *)
Theorem update_merges_characters (policy : undefined_put) :
  let documentId := _generateDocumentId serialize digest doc_cooking in
  let w := snd (Examples.add policy doc_cooking (empty_world [])) in
  let w' := snd (Examples.update documentId partial_body w) in
  let newDocument := Object_assign (Found (serialize doc_cooking)) partial_body in
  documents w !! documentId = Some (serialize doc_cooking) /\
  documents w' !! documentId = Some (serialize newDocument) /\
  obj_get newDocument "0" = Some (VString "{") /\
  obj_get newDocument "title" = None /\
  obj_get newDocument "body" = Some (VString "recipes") /\
  Spec.merge doc_cooking partial_body
  = [("title", VString "cooking"); ("body", VString "recipes")] /\
  serialize newDocument <> serialize (Spec.merge doc_cooking partial_body).
Proof.
  intros documentId w w' newDocument.
  assert (documents w !! documentId = Some (serialize doc_cooking)) as Hstored.
  { unfold w. rewrite add_cooking. apply lookup_insert_eq. }
  split; [exact Hstored |]. split.
  - unfold w', Examples.update. rewrite update_fault_free.
    + cbn [snd set_documents documents]. rewrite Hstored. apply lookup_insert_eq.
    + unfold w. rewrite add_cooking. reflexivity.
  - repeat split; try reflexivity. vm_compute. discriminate.
Qed.

(** C8 fails when the first store operation of [add] fails: [add] returns
    normally, the failure is on the console and the document is not
    stored. *)
Lemma store_failure_not_thrown :
  let run := Examples.add AsText doc_cooking (empty_world [true]) in
  fst run = Return tt /\
  fst run <> Throw IOError /\
  console (snd run) = [IOError] /\
  documents (snd run) = ∅.
Proof.
  intros run. repeat split; try reflexivity. discriminate.
Qed.

(** C6 on [{title: "cooking"}] added twice, and on [{title: "cooking"}]
    and [{title: "great cooking ideas"}]. *)
Lemma add_by_content_witness :
  let w := empty_world [] in
  let id := _generateDocumentId serialize digest doc_cooking in
  let id' := _generateDocumentId serialize digest doc_ideas in
  let w1 := snd (Examples.add AsText doc_cooking w) in
  (faults w = [] /\ serialize doc_cooking = serialize doc_cooking /\
   serialize doc_cooking <> serialize doc_ideas /\
   (digest (serialize doc_cooking) = digest (serialize doc_ideas) ->
    serialize doc_cooking = serialize doc_ideas)) /\
  (documents (snd (Examples.add AsText doc_cooking w1)) = documents w1) /\
  id <> id'.
Proof.
  intros w id id' w1.
  assert (faults w = []) as Hf by reflexivity.
  assert (serialize doc_cooking = serialize doc_cooking) as Hsame by reflexivity.
  assert (serialize doc_cooking <> serialize doc_ideas) as Hdiff by (vm_compute; discriminate).
  assert (digest (serialize doc_cooking) = digest (serialize doc_ideas) ->
          serialize doc_cooking = serialize doc_ideas) as Hcollision by (intros H; exact H).
  split; [auto |]. split.
  - exact (proj1 (proj2 (proj1 (add_by_content words [] serialize digest AsText
                                  doc_cooking doc_cooking w Hf) Hsame))).
  - exact (proj1 (proj2 (add_by_content words [] serialize digest AsText
                           doc_cooking doc_ideas w Hf) Hdiff Hcollision)).
Defined.

End PersistentExamples.

(** * Further facts about the in-memory engine *)

(** ** Documents and postings *)

Section BakStore.
Import Bak.

(** The postings after one more posting: it goes last under its token and
    document, and nothing else changes. *)
Lemma postingsOf_insertPosting index token documentId p token' d :
  postingsOf (insertPosting index token documentId p) token' d
  = if String.eqb token' token && String.eqb d documentId
    then postingsOf index token documentId ++ [p]
    else postingsOf index token' d.
Proof.
  unfold postingsOf, insertPosting.
  destruct (obj_get index token) as [record |] eqn:E.
  - destruct (obj_get record documentId) as [ps |] eqn:E';
      rewrite obj_get_set; destruct (String.eqb token' token) eqn:Et; simpl;
      try reflexivity; rewrite obj_get_set;
      destruct (String.eqb d documentId) eqn:Ed; try reflexivity;
      apply String.eqb_eq in Et; subst token'; rewrite E; reflexivity.
  - rewrite obj_get_set. destruct (String.eqb token' token) eqn:Et; simpl; [| reflexivity].
    simpl. destruct (String.eqb d documentId) eqn:Ed; [reflexivity |].
    apply String.eqb_eq in Et. subst token'. rewrite E. reflexivity.
Qed.

(** The postings while a document is indexed. *)
Lemma postingsOf_indexItems stopwords documentId items st token d :
  exists new,
    postingsOf (invertedIndex (fold_left (indexItem stopwords documentId) items st)) token d
    = postingsOf (invertedIndex st) token d ++ new /\
    length new
    = if String.eqb d documentId && negb (existsb (String.eqb token) stopwords)
      then occurrences token items else 0.
Proof.
  revert st. induction items as [| [[f toks] t] items IH]; intros st; simpl.
  - exists []. rewrite app_nil_r. split; [reflexivity |].
    unfold occurrences. simpl. destruct (_ && _); reflexivity.
  - destruct (IH (indexItem stopwords documentId st (f, toks, t))) as (new & Hnew & Hlen).
    rewrite Hnew. unfold indexItem, indexToken. simpl.
    unfold occurrences in *. simpl.
    destruct (existsb (String.eqb t) stopwords) eqn:Et.
    + exists new. split; [reflexivity |]. rewrite Hlen.
      destruct (String.eqb t token) eqn:E; [| reflexivity].
      apply String.eqb_eq in E. subst t. rewrite Et. simpl.
      rewrite andb_false_r. reflexivity.
    + simpl. rewrite postingsOf_insertPosting. rewrite (String.eqb_sym t token).
      destruct (String.eqb token t) eqn:E; simpl.
      * apply String.eqb_eq in E. subst t.
        destruct (String.eqb d documentId) eqn:Ed.
        -- apply String.eqb_eq in Ed. subst d.
           eexists. rewrite <- app_assoc. split; [reflexivity |].
           simpl. rewrite Hlen, Et. simpl. reflexivity.
        -- exists new. split; [reflexivity |]. rewrite Hlen. reflexivity.
      * exists new. split; [reflexivity |]. exact Hlen.
Qed.


(** The tokenized document does not depend on the engine. *)
Lemma tokenizeFields_tokens tokenizeNormalize st doc :
  snd (tokenizeFields tokenizeNormalize st doc)
  = Persistent._tokenizeFields tokenizeNormalize doc.
Proof.
  unfold tokenizeFields, Persistent._tokenizeFields.
  generalize (@nil (string * list string)) as acc. revert st.
  induction doc as [| [f v] doc IH]; intros st acc; simpl; [reflexivity |].
  destruct v; simpl; apply IH.
Qed.

(** X1.  [addDocument] stores the document under its identifier, the MD5
    digest of its JSON text: afterwards that identifier gives the document and
    every other identifier gives what it gave before; the identifier is a new
    key of the store, the last one, exactly when it was not a key already. *)
Theorem addDocument_stores tokenizeNormalize stopwords JSON_stringify md5
    (st : NodeSearch) (doc : document) :
  let documentId := documentIdOf JSON_stringify md5 doc in
  let st' := addDocument tokenizeNormalize stopwords JSON_stringify md5 st doc in
  (forall d,
     obj_get (documentStore st') d
     = if String.eqb d documentId then Some doc else obj_get (documentStore st) d) /\
  obj_keys (documentStore st')
  = (if obj_has (documentStore st) documentId
     then obj_keys (documentStore st)
     else obj_keys (documentStore st) ++ [documentId]).
Proof.
  intros documentId st'.
  assert (documentStore st' = obj_set (documentStore st) documentId doc) as Hstore.
  { unfold st'. rewrite addDocument_items. fold documentId.
    destruct (indexItems_frame stopwords documentId
      (workItems (snd (tokenizeFields tokenizeNormalize (withDocument st documentId doc) doc)))
      (fst (tokenizeFields tokenizeNormalize (withDocument st documentId doc) doc)))
      as (H & _). rewrite H.
    destruct (tokenizeFields_frame tokenizeNormalize (withDocument st documentId doc) doc)
      as (_ & H'). rewrite H'. reflexivity. }
  rewrite Hstore. split.
  - intros d. apply obj_get_set.
  - apply obj_keys_set.
Qed.

(** X2.  [addDocument] only appends to the postings.  For every token and
    every document identifier, the postings held afterwards are those held
    before followed by new ones; there are new ones only for the document that
    is added, one for each occurrence of the token in its string fields, and
    none when the token is a stopword. *)
Theorem addDocument_appends_postings tokenizeNormalize stopwords JSON_stringify md5
    (st : NodeSearch) (doc : document) (token d : string) :
  let documentId := documentIdOf JSON_stringify md5 doc in
  let st' := addDocument tokenizeNormalize stopwords JSON_stringify md5 st doc in
  let items := workItems (snd (tokenizeFields tokenizeNormalize st doc)) in
  exists new,
    postingsOf (invertedIndex st') token d
    = postingsOf (invertedIndex st) token d ++ new /\
    length new
    = if String.eqb d documentId && negb (existsb (String.eqb token) stopwords)
      then occurrences token items else 0.
Proof.
  intros documentId st' items. unfold st'. rewrite addDocument_items. fold documentId.
  set (st0 := withDocument st documentId doc).
  destruct (postingsOf_indexItems stopwords documentId
              (workItems (snd (tokenizeFields tokenizeNormalize st0 doc)))
              (fst (tokenizeFields tokenizeNormalize st0 doc)) token d)
    as (new & Hnew & Hlen).
  exists new. rewrite Hnew.
  destruct (tokenizeFields_frame tokenizeNormalize st0 doc) as (Hi & _).
  rewrite Hi. split; [reflexivity |].
  rewrite Hlen. unfold items. rewrite !tokenizeFields_tokens. reflexivity.
Qed.

(** A posting touches the record of its token only. *)
Lemma obj_get_insertPosting index token documentId p token' :
  token' <> token ->
  obj_get (insertPosting index token documentId p) token' = obj_get index token'.
Proof.
  intros Hne. unfold insertPosting.
  destruct (obj_get index token) as [record |];
    [destruct (obj_get record documentId) |]; apply obj_get_set_ne, Hne.
Qed.

(** [addFieldBoosts] leaves the index, the documents and the fields alone. *)
Lemma addFieldBoosts_frame st boosts :
  invertedIndex (addFieldBoosts st boosts) = invertedIndex st /\
  documentStore (addFieldBoosts st boosts) = documentStore st /\
  fields (addFieldBoosts st boosts) = fields st /\
  fieldsCount (addFieldBoosts st boosts) = fieldsCount st.
Proof.
  unfold addFieldBoosts. revert st.
  induction boosts as [| [f b] boosts IH]; intros st; simpl; [auto |].
  match goal with
  | |- context [fold_left _ boosts ?s] => destruct (IH s) as (H1 & H2 & H3 & H4)
  end.
  rewrite H1, H2, H3, H4. destruct (obj_get (fields st) f); auto.
Qed.

(** Indexing leaves the entry of a stopword alone. *)
Lemma stopword_indexItems stopwords documentId items st token :
  existsb (String.eqb token) stopwords = true ->
  obj_get (invertedIndex (fold_left (indexItem stopwords documentId) items st)) token
  = obj_get (invertedIndex st) token.
Proof.
  intros Hstop. revert st.
  induction items as [| [[f toks] t] items IH]; intros st; simpl; [reflexivity |].
  rewrite IH. unfold indexItem, indexToken. simpl.
  destruct (existsb (String.eqb t) stopwords) eqn:Et; [reflexivity |]. simpl.
  apply obj_get_insertPosting. intros ->. congruence.
Qed.

(** X3.  No stopword is ever a key of the inverted index, whatever calls
    built the engine; a query that is a stopword scores no document. *)
Theorem stopwords_never_indexed tokenizeNormalize stopwords JSON_stringify md5
    (calls : list call) :
  let st := after tokenizeNormalize stopwords JSON_stringify md5 calls in
  Forall (fun token =>
            obj_get (invertedIndex st) token = None /\
            scoreDocuments st [token] = [])
         stopwords.
Proof.
  intros st. apply List.Forall_forall. intros token Hin.
  assert (existsb (String.eqb token) stopwords = true) as Hstop.
  { apply existsb_exists. exists token. split; [exact Hin | apply String.eqb_refl]. }
  assert (obj_get (invertedIndex st) token = None) as Habsent.
  { unfold st, after.
    assert (forall st0, obj_get (invertedIndex st0) token = None ->
              obj_get (invertedIndex
                (fold_left (perform tokenizeNormalize stopwords JSON_stringify md5)
                           calls st0)) token = None) as H.
    { induction calls as [| c calls IH]; intros st0 H0; simpl; [exact H0 |].
      apply IH. destruct c as [doc | boosts]; simpl.
      - rewrite addDocument_items, stopword_indexItems by exact Hstop.
        destruct (tokenizeFields_frame tokenizeNormalize
                    (withDocument st0 (documentIdOf JSON_stringify md5 doc) doc) doc)
          as (Hi & _). rewrite Hi. exact H0.
      - destruct (addFieldBoosts_frame st0 boosts) as (Hi & _). rewrite Hi. exact H0. }
    apply H. reflexivity. }
  split; [exact Habsent |].
  apply scoreDocuments_absent. constructor; [exact Habsent | constructor].
Qed.

End BakStore.

(** ** Fields and boosts *)

Section BakFields.
Import Bak.

(** A new key goes last. *)
Lemma obj_set_new {V : Type} (o : obj V) (k : string) (v : V) :
  obj_get o k = None -> obj_set o k v = o ++ [(k, v)].
Proof.
  induction o as [| [k0 v0] o IH]; simpl; [reflexivity |].
  destruct (String.eqb k k0); [discriminate |]. intros H. rewrite IH by exact H. reflexivity.
Qed.

(** Writing at the length of an array appends to it. *)
Lemma arr_set_end {V : Type} (a : list (option V)) (v : V) :
  arr_set a (length a) v = a ++ [Some v].
Proof. induction a as [| x a IH]; simpl; [reflexivity | rewrite IH; reflexivity]. Qed.

(** Past the end of an array there is [undefined]. *)
Lemma arr_get_end {V : Type} (a : list (option V)) (i : nat) :
  length a <= i -> arr_get a i = None.
Proof.
  intros H. unfold arr_get.
  destruct (nth_error a i) eqn:E; [| reflexivity].
  assert (i < length a) by (apply nth_error_Some; congruence). lia.
Qed.

(** Writing inside an array keeps its length, and its holes if it has none. *)
Lemma arr_set_inside {V : Type} (a : list (option V)) (i : nat) (v : V) :
  i < length a ->
  length (arr_set a i v) = length a /\
  (Forall (fun x => x <> None) a -> Forall (fun x => x <> None) (arr_set a i v)).
Proof.
  revert i. induction a as [| x a IH]; intros i Hi; simpl in Hi; [lia |].
  destruct i as [| i]; simpl.
  - split; [reflexivity |]. intros H. inversion H; subst. constructor; [discriminate | assumption].
  - destruct (IH i ltac:(lia)) as [Hl Hf]. split; [lia |].
    intros H. inversion H; subst. constructor; auto.
Qed.

(** The identifier of a registered field is below [fieldsCount]. *)
Lemma registered_below st field i :
  numbered st -> obj_get (fields st) field = Some i -> i < fieldsCount st.
Proof.
  intros (Hn & _) Hget. apply obj_get_Some_In in Hget.
  assert (In i (map snd (fields st))) as Hin by (apply in_map_iff; exists (field, i); auto).
  rewrite Hn in Hin. apply in_seq in Hin. lia.
Qed.

(** Two fields do not share an identifier. *)
Lemma numbered_injective st f g i :
  numbered st ->
  obj_get (fields st) f = Some i -> obj_get (fields st) g = Some i -> f = g.
Proof.
  intros (Hn & _) Hf Hg. apply obj_get_Some_In in Hf, Hg.
  assert (List.NoDup (map snd (fields st))) as Hnd by (rewrite Hn; apply seq_NoDup).
  revert Hf Hg Hnd. generalize (fields st) as l.
  induction l as [| [k j] l IH]; simpl; [tauto |].
  intros [Hf | Hf] [Hg | Hg] Hnd; inversion Hnd; subst.
  - congruence.
  - inversion Hf; subst. exfalso. apply H1. apply in_map_iff. exists (g, i). auto.
  - inversion Hg; subst. exfalso. apply H1. apply in_map_iff. exists (f, i). auto.
  - auto.
Qed.

(** The calls keep the fields numbered. *)
Lemma numbered_registerField st field :
  numbered st -> numbered (registerField st field).
Proof.
  intros (Hn & Hnd & Hl & Hf). unfold registerField.
  destruct (obj_has (fields st) field) eqn:Ehas; [repeat split; assumption |].
  assert (obj_get (fields st) field = None) as Hnone.
  { unfold obj_has in Ehas. destruct (obj_get (fields st) field); [discriminate | reflexivity]. }
  rewrite arr_get_end by lia.
  unfold numbered. cbn [fields fieldsCount fieldBoosts]. rewrite obj_set_new by exact Hnone.
  rewrite map_app, Hn, seq_S. cbn [map snd Nat.add]. split; [reflexivity |].
  split; [| rewrite <- Hl, arr_set_end; split].
  - rewrite <- (obj_set_new _ _ (fieldsCount st)) by exact Hnone.
    apply obj_set_NoDup, Hnd.
  - rewrite length_app. simpl. lia.
  - apply Forall_app. split; [exact Hf |]. constructor; [discriminate | constructor].
Qed.

Lemma numbered_tokenizeFields tokenizeNormalize st doc :
  numbered st -> numbered (fst (tokenizeFields tokenizeNormalize st doc)).
Proof.
  unfold tokenizeFields.
  generalize (@nil (string * list string)) as acc. revert st.
  induction doc as [| [f v] doc IH]; intros st acc Hst; simpl; [exact Hst |].
  destruct v; simpl; apply IH, numbered_registerField, Hst.
Qed.

Lemma indexItems_fieldsCount stopwords documentId items st :
  fieldsCount (fold_left (indexItem stopwords documentId) items st) = fieldsCount st.
Proof.
  revert st. induction items as [| item items IH]; intros st; simpl; [reflexivity |].
  rewrite IH. unfold indexItem, indexToken.
  destruct (existsb (String.eqb (snd item)) stopwords); reflexivity.
Qed.

Lemma numbered_frame st st' :
  fields st' = fields st -> fieldsCount st' = fieldsCount st ->
  fieldBoosts st' = fieldBoosts st -> numbered st -> numbered st'.
Proof. unfold numbered. intros -> -> ->. auto. Qed.

Lemma numbered_addDocument tokenizeNormalize stopwords JSON_stringify md5 st doc :
  numbered st ->
  numbered (addDocument tokenizeNormalize stopwords JSON_stringify md5 st doc).
Proof.
  intros Hst. rewrite addDocument_items.
  match goal with |- numbered (fold_left _ ?items ?s) =>
    destruct (indexItems_frame stopwords (documentIdOf JSON_stringify md5 doc) items s)
      as (_ & Hf & Hb);
    apply (numbered_frame s); [exact Hf | apply indexItems_fieldsCount | exact Hb |]
  end.
  apply numbered_tokenizeFields. exact Hst.
Qed.

Lemma numbered_addFieldBoosts st boosts :
  numbered st -> numbered (addFieldBoosts st boosts).
Proof.
  unfold addFieldBoosts. revert st.
  induction boosts as [| [f b] boosts IH]; intros st Hst; simpl; [exact Hst |].
  apply IH. destruct (obj_get (fields st) f) as [i |] eqn:E; [| exact Hst].
  pose proof (registered_below st f i Hst E) as Hi.
  destruct Hst as (Hn & Hnd & Hl & Hf). unfold numbered. simpl.
  destruct (arr_set_inside (fieldBoosts st) i b ltac:(lia)) as [Hl' Hf'].
  repeat split; auto. lia.
Qed.

Lemma numbered_after tokenizeNormalize stopwords JSON_stringify md5 calls :
  numbered (after tokenizeNormalize stopwords JSON_stringify md5 calls).
Proof.
  unfold after.
  assert (numbered constructor) as H0.
  { unfold numbered. simpl. repeat split; constructor. }
  revert H0. generalize constructor as st.
  induction calls as [| c calls IH]; intros st Hst; simpl; [exact Hst |].
  apply IH. destruct c; simpl;
    [apply numbered_addDocument | apply numbered_addFieldBoosts]; exact Hst.
Qed.

(** X4.  Whatever calls built the engine, its fields are numbered [0], [1],
    ... in the order in which they were first seen, [fieldsCount] is the
    number of fields, and the array of boosts has exactly one boost for each
    field, with no hole. *)
Theorem fields_are_numbered tokenizeNormalize stopwords JSON_stringify md5
    (calls : list call) :
  let st := after tokenizeNormalize stopwords JSON_stringify md5 calls in
  map snd (fields st) = seq 0 (fieldsCount st) /\
  NoDup (obj_keys (fields st)) /\
  length (fieldBoosts st) = fieldsCount st /\
  Forall (fun boost => boost <> None) (fieldBoosts st).
Proof. intros st. apply numbered_after. Qed.







(** The boost of a registered field after [addFieldBoosts]. *)
Lemma addFieldBoosts_boost st boosts field i :
  numbered st -> NoDup (obj_keys boosts) ->
  obj_get (fields st) field = Some i ->
  arr_get (fieldBoosts (addFieldBoosts st boosts)) i
  = match obj_get boosts field with
    | Some b => Some b
    | None => arr_get (fieldBoosts st) i
    end.
Proof.
  unfold addFieldBoosts.
  match goal with |- context [fold_left ?f boosts _] => set (step := f) end.
  revert st. induction boosts as [| [g c] boosts IH]; intros st Hst Hnd Hf; simpl;
    [reflexivity |].
  inversion Hnd as [| ? ? Hg Hnd']; subst.
  assert (numbered (step st (g, c)) /\ fields (step st (g, c)) = fields st) as [Hst' Hfields].
  { split.
    - apply (numbered_addFieldBoosts st [(g, c)] Hst).
    - unfold step. simpl. destruct (obj_get (fields st) g); reflexivity. }
  rewrite IH; [| exact Hst' | exact Hnd' | rewrite Hfields; exact Hf].
  destruct (String.eqb field g) eqn:E.
  - apply String.eqb_eq in E. subst g.
    assert (obj_get boosts field = None) as ->.
    { apply obj_get_None_In. intros H. apply Hg, list_elem_of_In, H. }
    unfold step. cbn [fst snd]. rewrite Hf. cbn [fieldBoosts].
    rewrite arr_get_set, Nat.eqb_refl. reflexivity.
  - destruct (obj_get boosts field); [reflexivity |].
    unfold step. cbn [fst snd]. destruct (obj_get (fields st) g) as [j |] eqn:Eg;
      cbn [fieldBoosts]; [| reflexivity].
    rewrite arr_get_set. destruct (Nat.eqb j i) eqn:Eji; [| reflexivity].
    apply Nat.eqb_eq in Eji. subst j.
    pose proof (numbered_injective st field g i Hst Hf Eg) as ->.
    rewrite String.eqb_refl in E. discriminate.
Qed.

(** X6.  [addFieldBoosts] on a registered field: the field keeps its
    identifier, its boost becomes the one given for it, and the boost of a
    registered field that is not named stays what it was. *)
Theorem addFieldBoosts_sets_registered tokenizeNormalize stopwords JSON_stringify md5
    (calls : list call) (boosts : obj R) (field : string) (i : nat) :
  let st := after tokenizeNormalize stopwords JSON_stringify md5 calls in
  let st' := addFieldBoosts st boosts in
  NoDup (obj_keys boosts) ->
  obj_get (fields st) field = Some i ->
  obj_get (fields st') field = Some i /\
  arr_get (fieldBoosts st') i
  = match obj_get boosts field with
    | Some b => Some b
    | None => arr_get (fieldBoosts st) i
    end.
Proof.
  intros st st' Hnd Hf. split.
  - unfold st'. destruct (addFieldBoosts_frame st boosts) as (_ & _ & H & _).
    rewrite H. exact Hf.
  - apply addFieldBoosts_boost; [apply numbered_after | exact Hnd | exact Hf].
Qed.

End BakFields.

(** ** Candidates and raw scores *)

Section BakSearch.
Import Bak.

(** The keys after a write. *)
Lemma obj_keys_set_In {V : Type} (o : obj V) (k : string) (v : V) (d : string) :
  In d (obj_keys (obj_set o k v)) <-> In d (obj_keys o) \/ d = k.
Proof.
  rewrite obj_keys_set. destruct (obj_has o k) eqn:E.
  - apply obj_has_In in E. split; [auto |]. intros [H | ->]; assumption.
  - rewrite in_app_iff. simpl. split; intros [H | H]; auto.
    + destruct H as [<- | []]. auto.
Qed.

(** The documents scored after one token: those scored before and those of
    the record. *)
Lemma scoreToken_keys_iff (st : NodeSearch) (record : obj (list posting))
    (scores : obj jsnum) (d : string) :
  In d (obj_keys (scoreToken st scores record)) <->
  In d (obj_keys scores) \/ In d (obj_keys record).
Proof.
  unfold scoreToken. revert scores.
  induction record as [| [k ps] record IH]; intros scores; simpl.
  - tauto.
  - rewrite IH. destruct (obj_get scores k); rewrite obj_keys_set_In;
      split; intros H; intuition auto.
Qed.

(** The candidates are the documents that hold a posting for some token of
    the query. *)
Lemma scoreDocuments_keys (st : NodeSearch) (q : list string) (d : string) :
  In d (obj_keys (scoreDocuments st q)) <->
  exists token, In token q /\ tokenInDocument st d token = true.
Proof.
  split; [apply candidate_matches |].
  unfold scoreDocuments.
  match goal with |- context [fold_left ?f q _] => set (step := f) end.
  assert (forall q scores, In d (obj_keys scores) ->
            In d (obj_keys (fold_left step q scores))) as Hmono.
  { induction q0 as [| t q0 IH]; intros scores Hin; simpl; [exact Hin |].
    apply IH. unfold step. destruct (obj_get (invertedIndex st) t); [| exact Hin].
    apply scoreToken_keys_iff. auto. }
  generalize (@nil (string * jsnum)) as scores.
  induction q as [| t q IH]; intros scores (token & Hin & Htoken); simpl in *; [tauto |].
  destruct Hin as [-> | Hin].
  - apply Hmono. unfold step. unfold tokenInDocument in Htoken.
    destruct (obj_get (invertedIndex st) token) as [record |]; [| discriminate].
    apply scoreToken_keys_iff. right. apply obj_has_In. exact Htoken.
  - apply IH. exists token. auto.
Qed.

(** X7.  [search] throws nothing, whatever the engine, and returns one
    document for each document identifier that holds a posting for at least
    one token of the query: each such identifier once, and no other. *)
Theorem search_returns_the_matching_documents
    (tokenizeNormalize : string -> list string) (st : NodeSearch) (query : string) :
  exists results,
    finalScores tokenizeNormalize st query = Some results /\
    search tokenizeNormalize st query
    = Some (map (fun key => obj_get (documentStore st) key) (sortedResults results)) /\
    NoDup (sortedResults results) /\
    forall d,
      In d (sortedResults results) <->
      exists token,
        In token (tokenizeNormalize query) /\ tokenInDocument st d token = true.
Proof.
  assert (exists results, finalScores tokenizeNormalize st query = Some results)
    as [results Hfinal].
  { rewrite finalScores_value. destruct (queryNormalization _); eauto. }
  exists results. split; [exact Hfinal |].
  pose proof (finalScores_keys tokenizeNormalize st query results Hfinal) as Hkeys.
  assert (Permutation (sortedResults results) (obj_keys results)) as Hperm
    by apply js_sort_perm.
  split; [unfold search; rewrite Hfinal; reflexivity |]. split.
  - rewrite Hperm, Hkeys. apply scoreDocuments_NoDup.
  - intros d. rewrite <- scoreDocuments_keys, <- Hkeys. split; intros H.
    + apply (Permutation_in _ Hperm H).
    + apply (Permutation_in _ (Permutation_sym Hperm) H).
Qed.


(** The score of a document after one token. *)
Lemma scoreToken_get (st : NodeSearch) (record : obj (list posting))
    (scores : obj jsnum) (d : string) :
  NoDup (obj_keys record) ->
  obj_get (scoreToken st scores record) d
  = match obj_get record d with
    | Some ps =>
        Some (match obj_get scores d with
              | Some s => jadd s (termScore st ps)
              | None => termScore st ps
              end)
    | None => obj_get scores d
    end.
Proof.
  unfold scoreToken. revert scores.
  induction record as [| [k ps] record IH]; intros scores Hnd; simpl; [reflexivity |].
  inversion Hnd as [| ? ? Hk Hnd']; subst.
  rewrite IH by exact Hnd'.
  destruct (String.eqb d k) eqn:E.
  - apply String.eqb_eq in E. subst k.
    assert (obj_get record d = None) as ->.
    { apply obj_get_None_In. intros H. apply Hk. apply list_elem_of_In. exact H. }
    destruct (obj_get scores d); apply obj_get_set_eq.
  - assert (forall v, obj_get (obj_set scores k v) d = obj_get scores d) as Hsame.
    { intros v. rewrite obj_get_set, E. reflexivity. }
    destruct (obj_get scores k); rewrite Hsame; reflexivity.
Qed.

(** An accumulation that starts at the first matching token. *)
Lemma sum_from_first_fold (p : string -> bool) (c : string -> jsnum)
    (q : list string) (acc : option jsnum) :
  fold_left
    (fun (acc : option jsnum) token =>
       if p token
       then Some (match acc with Some s => jadd s (c token) | None => c token end)
       else acc)
    q acc
  = match acc with
    | Some s => Some (fold_left jadd (map c (List.filter p q)) s)
    | None => sum_from_first (map c (List.filter p q))
    end.
Proof.
  revert acc. induction q as [| t q IH]; intros acc; simpl.
  - destruct acc; reflexivity.
  - rewrite IH. destruct (p t); simpl; [| reflexivity].
    destruct acc; reflexivity.
Qed.

(** X8.  The raw score of a document is the sum of the term scores of its
    postings for the query tokens it holds, taken in the order of the query, a
    token that occurs twice in the query counting twice; a document that holds
    none of them has no score. *)
Theorem scoreDocuments_sums_term_scores
    tokenizeNormalize stopwords JSON_stringify md5
    (calls : list call) (tokenizedQuery : list string) (documentId : string) :
  let st := after tokenizeNormalize stopwords JSON_stringify md5 calls in
  obj_get (scoreDocuments st tokenizedQuery) documentId
  = sum_from_first
      (map (fun token => termScore st (postingsOf (invertedIndex st) token documentId))
           (List.filter (tokenInDocument st documentId) tokenizedQuery)).
Proof.
  intros st.
  pose proof (wellFormed_after tokenizeNormalize stopwords JSON_stringify md5 calls)
    as [Hindex _]. fold st in Hindex.
  rewrite <- (sum_from_first_fold (tokenInDocument st documentId)
                (fun token => termScore st (postingsOf (invertedIndex st) token documentId))
                tokenizedQuery None).
  unfold scoreDocuments.
  change (@None jsnum) with (obj_get (@nil (string * jsnum)) documentId).
  generalize (@nil (string * jsnum)) as scores.
  induction tokenizedQuery as [| t q IH]; intros scores; simpl; [reflexivity |].
  rewrite IH. f_equal.
  unfold tokenInDocument, postingsOf, obj_has.
  destruct (obj_get (invertedIndex st) t) as [record |] eqn:E; [| reflexivity].
  rewrite scoreToken_get by apply (Hindex t record E).
  destruct (obj_get record documentId); reflexivity.
Qed.

End BakSearch.

(** ** The components of a posting *)

Section BakWeights.
Import Bak.

(** The logarithm is monotone. *)
Lemma ln_monotone (x y : R) : (0 < x)%R -> (x <= y)%R -> (ln x <= ln y)%R.
Proof.
  intros Hx [Hlt | ->]; [left; apply ln_increasing; assumption | lra].
Qed.

(** Without documents the IDF is [-Infinity]. *)
Lemma idf_empty_store st token :
  documentStore st = [] -> inverseDocumentFrequency st token = NInf.
Proof.
  intros Hempty. unfold inverseDocumentFrequency. rewrite Hempty. simpl.
  unfold of_nat. rewrite jdiv_Fin.
  - unfold jlog. simpl. destruct (Rlt_dec (0 / _) 0) as [H | _].
    + unfold Rdiv in H. rewrite Rmult_0_l in H. lra.
    + destruct (Req_dec_T (0 / _) 0) as [_ | H]; [reflexivity |].
      exfalso. apply H. unfold Rdiv. apply Rmult_0_l.
  - apply not_0_INR. lia.
Qed.

(** The range of the IDF on a well-formed engine that stores a document. *)
Lemma idf_range st token :
  wellFormed st -> documentStore st <> [] ->
  exists x,
    inverseDocumentFrequency st token = Fin x /\
    (1 - ln 2 <= x <= 1 + ln (INR (length (obj_keys (documentStore st)))))%R.
Proof.
  intros Hwf Hdocs. rewrite inverseDocumentFrequency_value by exact Hdocs.
  eexists. split; [reflexivity |].
  pose proof (numDocumentsContainTerm_le st token Hwf) as Hle.
  set (N := length (obj_keys (documentStore st))) in *.
  set (df := numDocumentsContainTerm st token) in *.
  assert (1 <= N) as HN.
  { unfold N. destruct (documentStore st); [congruence | simpl; lia]. }
  assert (1 <= INR N)%R as HN' by (change 1%R with (INR 1); apply le_INR, HN).
  assert (0 <= INR df <= INR N)%R as Hdf by (split; [apply pos_INR | apply le_INR, Hle]).
  assert (/ 2 <= INR N / (INR df + 1))%R as Hhalf.
  { apply Rmult_le_reg_r with (INR df + 1)%R; [lra |].
    unfold Rdiv. rewrite Rmult_assoc, Rinv_l by lra. lra. }
  assert (INR N / (INR df + 1) <= INR N)%R as Hall.
  { apply Rmult_le_reg_r with (INR df + 1)%R; [lra |].
    unfold Rdiv. rewrite Rmult_assoc, Rinv_l by lra.
    assert (0 <= INR N * INR df)%R by (apply Rmult_le_pos; lra). lra. }
  assert (0 < / 2)%R as Hpos by lra.
  pose proof (ln_monotone _ _ Hpos Hhalf) as Hlow.
  assert (0 < INR N / (INR df + 1))%R as Hpos' by lra.
  pose proof (ln_monotone _ _ Hpos' Hall) as Hhigh.
  rewrite ln_Rinv in Hlow by lra. lra.
Qed.

(** X9.  The IDF on an engine built by calls: [-Infinity] as long as no
    document is stored; otherwise a number between [1 - ln 2], which is
    positive, and [1 + ln N] for [N] stored documents. *)
Theorem inverseDocumentFrequency_range tokenizeNormalize stopwords JSON_stringify md5
    (calls : list call) (token : string) :
  let st := after tokenizeNormalize stopwords JSON_stringify md5 calls in
  let N := length (obj_keys (documentStore st)) in
  match N with
  | 0 => inverseDocumentFrequency st token = NInf
  | S _ =>
      exists x,
        inverseDocumentFrequency st token = Fin x /\
        (0 < 1 - ln 2 <= x)%R /\ (x <= 1 + ln (INR N))%R
  end.
Proof.
  intros st N. unfold N.
  destruct (documentStore st) as [| kv docs] eqn:E; simpl length.
  - apply idf_empty_store. exact E.
  - destruct (idf_range st token) as (x & Hx & Hlow & Hhigh).
    + apply wellFormed_after.
    + rewrite E. discriminate.
    + exists x. rewrite E in Hhigh. simpl length in Hhigh.
      pose proof ln_2_bounds. repeat split; try assumption; lra.
Qed.

(** X10.  A token held by fewer documents has the larger IDF, or the
    same. *)
Theorem rarer_terms_weigh_more (st : NodeSearch) (common rare : string) :
  numDocumentsContainTerm st rare <= numDocumentsContainTerm st common ->
  jleb (inverseDocumentFrequency st common) (inverseDocumentFrequency st rare) = true.
Proof.
  intros Hle. destruct (documentStore st) as [| kv docs] eqn:E.
  - rewrite !idf_empty_store by exact E. reflexivity.
  - rewrite !inverseDocumentFrequency_value by (rewrite E; discriminate).
    apply jleb_Fin. apply Rplus_le_compat_l.
    set (N := length (obj_keys (documentStore st))).
    assert (1 <= INR N)%R as HN.
    { change 1%R with (INR 1). apply le_INR. unfold N. rewrite E. simpl. lia. }
    pose proof (pos_INR (numDocumentsContainTerm st rare)) as Hr.
    pose proof (le_INR _ _ Hle) as Hle'.
    apply ln_monotone.
    + apply Rdiv_lt_0_compat; lra.
    + unfold Rdiv. apply Rmult_le_compat_l; [lra |].
      apply Rinv_le_contravar; lra.
Qed.











End BakWeights.

(** ** The tokenized document *)

Section Tokenized.




End Tokenized.

(** ** The final score *)

Section BakFormula.
Import Bak.

(** The score of a document after the rescaling loop of [search]. *)
Lemma obj_get_map_rescaled st q norm (scores : obj jsnum) (d : string) :
  obj_get (map (rescaled st q norm) scores) d
  = match obj_get scores d with
    | Some raw => Some (jmul raw (jmul norm (queryCoordination st q d)))
    | None => None
    end.
Proof.
  induction scores as [| [k s] scores IH]; simpl; [reflexivity |].
  destruct (String.eqb d k) eqn:E; [| exact IH].
  apply String.eqb_eq in E. subst k. reflexivity.
Qed.

(** X13.  The final score of a document is its raw score times the
    normalization of the query times the coordination factor of the document;
    [search] gives a final score to the documents that have a raw score and to
    no other. *)
Theorem final_score_formula (tokenizeNormalize : string -> list string)
    (st : NodeSearch) (query : string) (documentId : string) :
  let q := tokenizeNormalize query in
  exists results,
    finalScores tokenizeNormalize st query = Some results /\
    obj_get results documentId
    = match queryNormalization (map (inverseDocumentFrequency st) q),
            obj_get (scoreDocuments st q) documentId with
      | Some norm, Some raw =>
          Some (jmul raw (jmul norm (queryCoordination st q documentId)))
      | _, _ => None
      end.
Proof.
  intros q. rewrite finalScores_value. fold q.
  destruct (queryNormalization (map (inverseDocumentFrequency st) q)) as [norm |] eqn:E.
  - eexists. split; [reflexivity |]. apply obj_get_map_rescaled.
  - exists []. split; [reflexivity |]. reflexivity.
Qed.

(** A filter keeps everything exactly when everything passes. *)
Lemma filter_all {A} (f : A -> bool) (l : list A) :
  length (List.filter f l) <= length l /\
  (length (List.filter f l) = length l <-> Forall (fun x => f x = true) l).
Proof.
  induction l as [| x l [IHle IHiff]]; simpl.
  - split; [lia |]. split; [constructor | reflexivity].
  - destruct (f x) eqn:E; simpl.
    + split; [lia |]. split.
      * intros H. constructor; [exact E |]. apply IHiff. lia.
      * intros H. inversion H; subst. f_equal. apply IHiff. assumption.
    + split; [lia |]. split; [lia |].
      intros H. inversion H; subst. congruence.
Qed.

(** The coordination factor of a candidate. *)
Lemma queryCoordination_unit (st : NodeSearch) (tokenizedQuery : list string)
    (documentId : string) :
  In documentId (obj_keys (scoreDocuments st tokenizedQuery)) ->
  exists c,
    queryCoordination st tokenizedQuery documentId = Fin c /\
    (0 < c <= 1)%R /\
    (c = 1%R <->
     Forall (fun token => tokenInDocument st documentId token = true) tokenizedQuery).
Proof.
  intros Hd. apply candidate_matches in Hd. destruct Hd as (t & Ht & Hm).
  set (f := tokenInDocument st documentId).
  set (m := length (List.filter f tokenizedQuery)).
  set (n := length tokenizedQuery).
  destruct (filter_all f tokenizedQuery) as [Hle Hiff]. fold m n in Hle, Hiff.
  assert (1 <= m) as Hm1.
  { unfold m. assert (In t (List.filter f tokenizedQuery)) as Hin
      by (apply filter_In; auto).
    destruct (List.filter f tokenizedQuery); [destruct Hin | simpl; lia]. }
  assert (1 <= INR m)%R as Hm' by (change 1%R with (INR 1); apply le_INR, Hm1).
  assert (INR m <= INR n)%R as Hmn by apply le_INR, Hle.
  exists (INR m / INR n)%R. split; [| split].
  - unfold queryCoordination. rewrite count_matching. simpl.
    apply jdiv_Fin. fold n. lra.
  - split; [apply Rdiv_lt_0_compat; lra |].
    apply Rmult_le_reg_r with (INR n); [lra |].
    unfold Rdiv. rewrite Rmult_assoc, Rinv_l by lra. lra.
  - rewrite <- Hiff. split.
    + intros H. apply INR_eq.
      apply Rmult_eq_compat_r with (r := INR n) in H.
      unfold Rdiv in H. rewrite Rmult_assoc, Rinv_l in H by lra. lra.
    + intros ->. unfold Rdiv. apply Rinv_r. lra.
Qed.

(** X14.  The coordination factor of a candidate document lies in
    (0, 1], and it is 1 exactly when the document holds a posting for every
    token of the query. *)
Theorem coordination_of_a_match (st : NodeSearch) (tokenizedQuery : list string)
    (documentId : string) :
  In documentId (obj_keys (scoreDocuments st tokenizedQuery)) ->
  exists c,
    queryCoordination st tokenizedQuery documentId = Fin c /\
    (0 < c <= 1)%R /\
    (c = 1%R <->
     Forall (fun token => tokenInDocument st documentId token = true) tokenizedQuery).
Proof. apply queryCoordination_unit. Qed.

End BakFormula.

(** ** Positive scores *)

Section BakPositive.
Import Bak.

















End BakPositive.


(** * Further facts about the persistent engine *)

(** ** Reading back what was written *)

Section PersistentRoundTrips.
Import Persistent.

(** X16.  [get] after [add], in a store that does not fail: it answers the
    JSON text of the document, as stored, and changes nothing. *)
Theorem get_after_add tokenizeNormalize stopwords JSON_stringify md5 policy
    (doc : document) (w : world) :
  let documentId := _generateDocumentId JSON_stringify md5 doc in
  let w' := snd (add tokenizeNormalize stopwords JSON_stringify md5 policy doc w) in
  faults w = [] ->
  get documentId w' = (Return (Found (JSON_stringify doc)), w').
Proof.
  intros documentId w' Hf.
  destruct (add_fault_free tokenizeNormalize stopwords JSON_stringify md5 policy doc w Hf)
    as (Hd & _ & Hf').
  fold w' in Hd, Hf'. rewrite get_fault_free by exact Hf'.
  rewrite Hd. fold documentId. rewrite lookup_insert_eq. reflexivity.
Qed.

(** X17.  [get] after [delete], in a store that does not fail: it answers
    [null]; [delete] removes the document, if there was one, and logs
    nothing. *)
Theorem get_after_delete (documentId : string) (w : world) :
  let w' := snd (delete documentId w) in
  faults w = [] ->
  get documentId w' = (Return Null, w') /\
  documents w' = base.delete documentId (documents w) /\
  console w' = console w.
Proof.
  intros w' Hf. unfold w'. rewrite delete_fault_free by exact Hf. simpl.
  split; [| auto].
  rewrite get_fault_free by exact Hf. simpl. rewrite lookup_delete_eq. reflexivity.
Qed.

(** X18.  [update] and [delete] never touch the inverted index nor the
    document count, whether store operations fail or not, and they leave every
    other document as it was: the postings of a document that is updated or
    deleted stay in the index. *)
Theorem update_and_delete_keep_the_index JSON_stringify
    (documentId : string) (partialUpdatedDocument : document) (w : world) :
  let updated := snd (update JSON_stringify documentId partialUpdatedDocument w) in
  let deleted := snd (delete documentId w) in
  (invertedIndex updated = invertedIndex w /\ documentCount updated = documentCount w) /\
  (invertedIndex deleted = invertedIndex w /\ documentCount deleted = documentCount w) /\
  (forall d, d <> documentId ->
     documents updated !! d = documents w !! d /\
     documents deleted !! d = documents w !! d).
Proof.
  intros updated deleted. unfold updated, deleted, update, delete, get, try_catch, bind,
    store_get_document, store_put_document, store_del_document, store_op, ret,
    console_error.
  destruct (faults w) as [| [|] [| [|] fs]] eqn:Hf; simpl;
    destruct (documents w !! documentId); simpl; rewrite ?Hf; simpl;
    (split; [auto | split; [auto |]]);
    intros d Hd; rewrite ?lookup_insert_ne, ?lookup_delete_ne by congruence; auto.
Qed.

(** X19.  When the first store operation of [add] fails, [add] logs the
    failure and does nothing else: no document is written, nothing is counted
    or indexed, and no other store operation is tried. *)
Theorem add_gives_up_when_the_store_fails
    tokenizeNormalize stopwords JSON_stringify md5 policy
    (doc : document) (w : world) (fs : list bool) :
  faults w = true :: fs ->
  add tokenizeNormalize stopwords JSON_stringify md5 policy doc w
  = (Return tt, set_console (fun c => c ++ [IOError]) (set_faults fs w)).
Proof.
  intros Hf. unfold add, try_catch, bind, store_put_document, store_op. rewrite Hf.
  reflexivity.
Qed.

(** X20.  When the read of [update] fails and its write does not, the
    failure is logged and [update] still writes: the document stored under the
    identifier is the JSON text of the fields of the partial document
    alone. *)
Theorem update_writes_after_a_failed_read JSON_stringify
    (documentId : string) (partialUpdatedDocument : document) (w : world)
    (fs : list bool) :
  let w' := snd (update JSON_stringify documentId partialUpdatedDocument w) in
  faults w = true :: fs -> hd false fs = false ->
  documents w' !! documentId
  = Some (JSON_stringify (Object_assign Undefined partialUpdatedDocument)) /\
  console w' = console w ++ [IOError].
Proof.
  intros w' Hf Hfs. unfold w', update, get, try_catch, bind,
    store_get_document, store_put_document, store_op, ret, console_error.
  rewrite Hf. simpl. destruct fs as [| [|] fs]; simpl in *; try discriminate;
    rewrite lookup_insert_eq; auto.
Qed.

(** Without a previous version the merged document is the partial one. *)
Lemma Object_assign_absent (previous : fetched string) (partialDocument : document) :
  previous = Null \/ previous = Undefined ->
  NoDup (map fst partialDocument) ->
  Object_assign previous partialDocument = partialDocument.
Proof.
  intros Hprev Hnd. apply NoDup_ListNoDup in Hnd.
  assert (Object_assign previous partialDocument
          = fold_left (fun o fv => obj_set o (fst fv) (snd fv)) partialDocument []) as ->
    by (destruct Hprev as [-> | ->]; reflexivity).
  enough (forall acc : document,
            List.NoDup (obj_keys acc ++ map fst partialDocument) ->
            fold_left (fun o fv => obj_set o (fst fv) (snd fv)) partialDocument acc
            = acc ++ partialDocument) as H by (apply (H []); exact Hnd).
  clear. induction partialDocument as [| [f v] rest IH]; intros acc Hnd; simpl.
  - rewrite app_nil_r. reflexivity.
  - simpl in Hnd.
    assert (obj_get acc f = None) as Hnew.
    { apply obj_get_None_In. intros Hin. apply NoDup_remove_2 in Hnd.
      apply Hnd, in_or_app. left. exact Hin. }
    rewrite obj_set_new by exact Hnew. rewrite IH.
    + rewrite <- app_assoc. reflexivity.
    + unfold obj_keys. rewrite map_app, <- app_assoc. exact Hnd.
Qed.

(** X21.  [update] on an identifier that is not stored, in a store that
    does not fail, creates the document: what is stored is the JSON text of
    the partial document, and nothing is logged. *)
Theorem update_creates_an_absent_document JSON_stringify
    (documentId : string) (partialUpdatedDocument : document) (w : world) :
  faults w = [] ->
  documents w !! documentId = None ->
  NoDup (map fst partialUpdatedDocument) ->
  update JSON_stringify documentId partialUpdatedDocument w
  = (Return tt,
     set_documents (insert documentId (JSON_stringify partialUpdatedDocument)) w).
Proof.
  intros Hf Habsent Hnd. rewrite update_fault_free by exact Hf.
  rewrite Habsent, Object_assign_absent; auto.
Qed.

End PersistentRoundTrips.

(** ** The postings and the count of the store *)

Section PersistentIdf.
Import Persistent.

Lemma uncounted_console f w : uncounted w -> uncounted (set_console f w).
Proof. intros H. exact H. Qed.

Lemma uncounted_faults fs w : uncounted w -> uncounted (set_faults fs w).
Proof. intros H. exact H. Qed.

Ltac uncounted_kept := first [ apply uncounted_console | apply uncounted_faults ].

Ltac uncounted_step :=
  first
    [ apply ensures_ret; exact I
    | apply ensures_throw
    | apply ensures_console_error; [uncounted_kept | exact I]
    | apply ensures_try_catch; [| intros ?]
    | eapply ensures_bind with (Q := fun _ => True); [| intros ? _]
    | apply ensures_store_op; [uncounted_kept |] ].

Lemma uncounted_documents f w : uncounted w -> uncounted (set_documents f w).
Proof. intros H. exact H. Qed.

(** A loop whose body is run on the elements of the list only. *)
Lemma ensures_for_each_In {A} (P : world -> Prop) (l : list A) (body : A -> io unit) :
  (forall x, In x l -> ensures P (body x) (fun _ => True)) ->
  ensures P (for_each l body) (fun _ => True).
Proof.
  induction l as [| x l IH]; intros Hb; simpl.
  - intros w Hw. split; [exact Hw | exact I].
  - intros w Hw. unfold bind.
    destruct (Hb x (or_introl eq_refl) w Hw) as [Hw' _].
    destruct (body x w) as [[[] | e] w']; simpl in *.
    + apply IH; [| exact Hw']. intros y Hy. apply Hb. right. exact Hy.
    + split; [exact Hw' | exact I].
Qed.

(** What is read under [DocumentCount] is what the store writes for
    [undefined]. *)
Lemma uncounted__getNumDocuments :
  ensures uncounted _getNumDocuments
    (fun numDocuments =>
       match numDocuments with
       | Found text => text = "undefined" \/ text = ""
       | _ => True
       end).
Proof.
  apply ensures_try_catch.
  - eapply ensures_bind with (Q := fun text => text = "undefined" \/ text = "").
    + apply ensures_store_op; [uncounted_kept |].
      intros w Hw. simpl. destruct (documentCount w) as [text |] eqn:E; simpl.
      * split; [exact Hw |]. destruct Hw as (_ & [H | [H | H]]); rewrite E in H;
          [discriminate | |]; injection H as ->; auto.
      * auto.
    + intros text Htext. apply ensures_ret. exact Htext.
  - intros e. destruct e; try (apply ensures_ret; exact I);
      (eapply ensures_bind with (Q := fun _ => True);
       [apply ensures_console_error; [uncounted_kept | exact I]
       | intros _ _; apply ensures_ret; exact I]).
Qed.

(** What is read from the index has no IDF in its postings. *)
Lemma uncounted__invertedIndexGetToken token :
  ensures uncounted (_invertedIndexGetToken token)
    (fun fetchedRecord =>
       match fetchedRecord with Found r => recordWithoutIdf r | _ => True end).
Proof.
  apply ensures_try_catch.
  - eapply ensures_bind with (Q := recordWithoutIdf).
    + apply ensures_store_op; [uncounted_kept |].
      intros w Hw. simpl. destruct (invertedIndex w !! token) as [r |] eqn:E; simpl.
      * split; [exact Hw |]. destruct Hw as [Hindex _]. apply (Hindex token r E).
      * auto.
    + intros r Hr. apply ensures_ret. exact Hr.
  - intros e. destruct e; try (apply ensures_ret; exact I);
      (eapply ensures_bind with (Q := fun _ => True);
       [apply ensures_console_error; [uncounted_kept | exact I]
       | intros _ _; apply ensures_ret; exact I]).
Qed.

(** A record without IDF is written back as such. *)
Lemma uncounted__invertedIndexSetToken token r :
  recordWithoutIdf r ->
  ensures uncounted (_invertedIndexSetToken token r) (fun _ => True).
Proof.
  intros Hr. apply ensures_try_catch.
  - apply ensures_store_op; [uncounted_kept |].
    intros w [Hindex Hcount]. simpl. split; [| exact I]. split; [| exact Hcount].
    simpl. apply map_Forall_insert_2; assumption.
  - intros e. apply ensures_console_error; [uncounted_kept | exact I].
Qed.

Lemma recordWithoutIdf_set r documentId ps :
  recordWithoutIdf r -> Forall withoutIdf ps ->
  recordWithoutIdf (obj_set r documentId ps).
Proof. intros Hr Hps. apply obj_set_Forall; assumption. Qed.

(** A posting without IDF is inserted as such. *)
Lemma uncounted__invertedIndexInsert token documentId posting :
  withoutIdf (map to_json posting) ->
  ensures uncounted (_invertedIndexInsert token documentId posting) (fun _ => True).
Proof.
  intros Hp. apply ensures_try_catch.
  - eapply ensures_bind; [apply uncounted__invertedIndexGetToken |].
    intros [parsed | |] Hparsed.
    + destruct (obj_get parsed documentId) as [postings |] eqn:E;
        apply uncounted__invertedIndexSetToken, recordWithoutIdf_set; try exact Hparsed.
      * apply Forall_app. split; [| constructor; [exact Hp | constructor]].
        apply (obj_get_Forall _ _ _ _ Hparsed E).
      * constructor; [exact Hp | constructor].
    + apply uncounted__invertedIndexSetToken.
      constructor; [| constructor]. constructor; [exact Hp | constructor].
    + apply uncounted__invertedIndexSetToken.
      constructor; [| constructor]. constructor; [exact Hp | constructor].
  - intros e. apply ensures_console_error; [uncounted_kept | exact I].
Qed.

(** [_incrementNumDocuments] writes no count. *)
Lemma uncounted__incrementNumDocuments policy num :
  ensures uncounted (_incrementNumDocuments policy num) (fun _ => True).
Proof.
  uncounted_step; [| uncounted_step].
  eapply ensures_bind; [apply uncounted__getNumDocuments | intros stored _].
  uncounted_step; [| uncounted_step].
  unfold store_put_count. destruct policy; simpl.
  - uncounted_step.
  - uncounted_step. intros w [Hindex _]. simpl. split; [| exact I]. split; [exact Hindex | auto].
  - uncounted_step. intros w [Hindex _]. simpl. split; [| exact I]. split; [exact Hindex | auto].
Qed.

(** [Math.log(0 / 1)] is [-Infinity]. *)
Lemma jlog_of_zero : jlog (Fin (0 / INR 1)) = NInf.
Proof.
  unfold jlog. simpl. destruct (Rlt_dec (0 / 1) 0) as [H | _]; [lra |].
  destruct (Req_dec_T (0 / 1) 0) as [_ | H]; [reflexivity | lra].
Qed.

(** Without a count the IDF is not a number: its JSON is [null]. *)
Lemma idf_of_no_count (numDocuments : jsnum) (documentsContainTerm : option record) :
  numDocuments = NaN \/ numDocuments = Fin 0 ->
  to_json (Some (jadd (Fin 1)
                   (jlog (jdiv numDocuments
                            (numDocumentsContainTerm_plus_1 documentsContainTerm)))))
  = None.
Proof.
  intros [-> | ->].
  - reflexivity.
  - destruct documentsContainTerm as [parsed |]; simpl.
    + destruct (obj_get parsed "length"); reflexivity.
    + unfold of_nat. rewrite jdiv_Fin by (simpl; lra).
      change (INR (0 + 1)) with (INR 1). rewrite jlog_of_zero. reflexivity.
Qed.

(** The IDF that [_inverseDocumentFrequency] answers is printed [null]. *)
Lemma uncounted__inverseDocumentFrequency term :
  ensures uncounted (_inverseDocumentFrequency term) (fun idf => to_json idf = None).
Proof.
  apply ensures_try_catch.
  - eapply ensures_bind; [apply uncounted__getNumDocuments | intros numDocuments Hnum].
    eapply ensures_bind; [apply uncounted__invertedIndexGetToken | intros raw _].
    eapply ensures_bind with (Q := fun _ => True).
    + destruct raw; uncounted_step.
    + intros documentsContainTerm _. apply ensures_ret. apply idf_of_no_count.
      destruct numDocuments as [text | |]; simpl; auto.
      destruct Hnum as [-> | ->]; auto.
  - intros e. eapply ensures_bind with (Q := fun _ => True).
    + apply ensures_console_error; [uncounted_kept | exact I].
    + intros _ _. apply ensures_ret. reflexivity.
Qed.

(** The posting that [_indexDocument] builds for a token of a field. *)
Lemma posting_withoutIdf (token : string) (tokens : list string) (idf : option jsnum) :
  In token tokens -> to_json idf = None ->
  withoutIdf
    (map to_json
       [Some (_termFrequency token tokens); idf; Some (_fieldLengthNormalization tokens)]).
Proof.
  intros Hin Hidf.
  set (c := length (List.filter (fun t => String.eqb t token) tokens)).
  assert (1 <= c) as Hc.
  { unfold c. rewrite filter_eqb_count. apply (count_occ_In string_dec) in Hin. lia. }
  assert (1 <= length tokens) as Hn by (destruct tokens; [destruct Hin | simpl; lia]).
  assert (forall n, 1 <= n -> (1 <= sqrt (INR n))%R) as Hsqrt.
  { intros n Hle. rewrite <- sqrt_1 at 1. apply sqrt_le_1_alt.
    change 1%R with (INR 1). apply le_INR, Hle. }
  exists (sqrt (INR c)), (1 / sqrt (INR (length tokens)))%R.
  pose proof (Hsqrt c Hc) as H1. pose proof (Hsqrt (length tokens) Hn) as H2.
  split; [| split; [exact H1 |]].
  - cbn [map]. rewrite Hidf. unfold _termFrequency, _fieldLengthNormalization.
    fold c. rewrite !jsqrt_of_nat. rewrite jdiv_Fin by lra. reflexivity.
  - split.
    + apply Rdiv_lt_0_compat; lra.
    + apply Rmult_le_reg_r with (sqrt (INR (length tokens))); [lra |].
      unfold Rdiv. rewrite Rmult_assoc, Rinv_l by lra. lra.
Qed.

Lemma uncounted__indexDocument tokenizeNormalize stopwords documentId doc :
  ensures uncounted
    (_indexDocument tokenizeNormalize stopwords documentId doc) (fun _ => True).
Proof.
  uncounted_step; [| uncounted_step].
  apply ensures_for_each_In. intros ft _. apply ensures_for_each_In. intros token Hin.
  destruct (existsb (String.eqb token) stopwords); [uncounted_step |].
  eapply ensures_bind; [apply uncounted__inverseDocumentFrequency | intros idf Hidf].
  apply uncounted__invertedIndexInsert, posting_withoutIdf; assumption.
Qed.

(** The public operations keep the store as described. *)
Lemma uncounted_perform tokenizeNormalize stopwords JSON_stringify md5 policy c :
  ensures uncounted
    (perform tokenizeNormalize stopwords JSON_stringify md5 policy c) (fun _ => True).
Proof.
  destruct c as [doc | documentId partialUpdatedDocument | documentId]; simpl.
  - uncounted_step; [| uncounted_step].
    uncounted_step.
    + uncounted_step. intros w Hw. simpl. split; [apply uncounted_documents, Hw | exact I].
    + eapply ensures_bind; [apply uncounted__incrementNumDocuments | intros _ _].
      apply uncounted__indexDocument.
  - uncounted_step; [| uncounted_step].
    uncounted_step.
    + uncounted_step.
      * uncounted_step; [| uncounted_step]. uncounted_step.
        intros w Hw. simpl. destruct (documents w !! documentId); simpl; auto.
      * destruct e; repeat uncounted_step.
    + uncounted_step. intros w Hw. simpl. split; [apply uncounted_documents, Hw | exact I].
  - uncounted_step; [| uncounted_step].
    uncounted_step. intros w Hw. simpl. split; [apply uncounted_documents, Hw | exact I].
Qed.

(** X22.  Whatever calls of [add], [update] and [delete] are made on an
    empty store, and whichever store operations fail, every posting in the
    index is [[tf, null, fln]] with [tf >= 1] and [0 < fln <= 1]: no posting
    has an IDF.  The value under [DocumentCount] is never a count: the key is
    absent or holds what the store writes for [undefined]. *)
Theorem no_posting_has_an_idf
    tokenizeNormalize stopwords JSON_stringify md5 policy
    (calls : list call) (failures : list bool) :
  let w :=
    fold_left
      (fun w c => snd (perform tokenizeNormalize stopwords JSON_stringify md5 policy c w))
      calls (empty_world failures) in
  map_Forall (fun _ r => Forall (fun entry => Forall withoutIdf (snd entry)) r)
             (invertedIndex w) /\
  (documentCount w = None \/ documentCount w = Some "undefined" \/
   documentCount w = Some "").
Proof.
  intros w. change (uncounted w). unfold w. clear w.
  assert (uncounted (empty_world failures)) as H0.
  { split; [apply map_Forall_empty | auto]. }
  revert H0. generalize (empty_world failures) as w.
  induction calls as [| c calls IH]; intros w Hw; simpl; [exact Hw |].
  apply IH.
  apply (uncounted_perform tokenizeNormalize stopwords JSON_stringify md5 policy c w Hw).
Qed.

End PersistentIdf.

(** ** The insertion of a posting *)

Section PersistentInsert.
Import Persistent.

(** X23.  [_invertedIndexInsert] then [_invertedIndexGetToken], in a store
    that does not fail: the record read back is the previous record of the
    token with the posting appended to the postings of the document (a new
    entry, the last one, when the document had none), and the records of the
    other tokens are as before. *)
Theorem token_after_insert (token documentId : string)
    (posting : list (option jsnum)) (w : world) :
  let w' := snd (_invertedIndexInsert token documentId posting w) in
  let previous :=
    match invertedIndex w !! token with Some r => r | None => [] end in
  let postings :=
    match obj_get previous documentId with Some ps => ps | None => [] end in
  faults w = [] ->
  exists r,
    _invertedIndexGetToken token w' = (Return (Found r), w') /\
    r = obj_set previous documentId (postings ++ [map to_json posting]) /\
    forall token', token' <> token -> invertedIndex w' !! token' = invertedIndex w !! token'.
Proof.
  intros w' previous postings Hf. unfold w'.
  rewrite _invertedIndexInsert_fault_free by exact Hf. cbn [snd].
  eexists. split; [| split].
  - rewrite _invertedIndexGetToken_fault_free by exact Hf.
    cbn [invertedIndex set_invertedIndex]. rewrite lookup_insert_eq. reflexivity.
  - unfold postings, previous.
    destruct (invertedIndex w !! token) as [parsed |]; [| reflexivity].
    destruct (obj_get parsed documentId) eqn:E;
      unfold record, Persistent.posting in *; rewrite ?E; reflexivity.
  - intros token' Hne. cbn [invertedIndex set_invertedIndex].
    apply lookup_insert_ne. congruence.
Qed.

End PersistentInsert.

(** ** The stopwords and the store *)

Section PersistentStopwords.
Import Persistent.

Lemma unindexed_console tokens f w : unindexed tokens w -> unindexed tokens (set_console f w).
Proof. intros H. exact H. Qed.

Lemma unindexed_faults tokens fs w : unindexed tokens w -> unindexed tokens (set_faults fs w).
Proof. intros H. exact H. Qed.

Ltac unindexed_kept := first [ apply unindexed_console | apply unindexed_faults ].

Ltac unindexed_step :=
  first
    [ apply ensures_ret; exact I
    | apply ensures_throw
    | apply ensures_console_error; [unindexed_kept | exact I]
    | apply ensures_try_catch; [| intros ?]
    | eapply ensures_bind with (Q := fun _ => True); [| intros ? _]
    | apply ensures_store_op; [unindexed_kept |] ].

(** An operation of the store on another key. *)
Lemma unindexed_other_key tokens {A} (f : world -> outcome A) (g : world -> world) :
  (forall w, invertedIndex (g w) = invertedIndex w) ->
  ensures (unindexed tokens) (fun w => (f w, g w)) (fun _ => True).
Proof.
  intros Hg w Hw. simpl. split; [| destruct (f w); exact I].
  unfold unindexed. rewrite Hg. exact Hw.
Qed.

Lemma unindexed_absent_handler tokens {A} (e : error) :
  ensures (unindexed tokens)
    (match e with
     | NotFoundError => ret (@Null A)
     | _ => bind (console_error e) (fun _ => ret Undefined)
     end)
    (fun _ => True).
Proof. destruct e; repeat unindexed_step. Qed.

Lemma unindexed__getNumDocuments tokens :
  ensures (unindexed tokens) _getNumDocuments (fun _ => True).
Proof.
  apply ensures_try_catch; [| intros e; apply unindexed_absent_handler].
  unindexed_step; [| unindexed_step]. unindexed_step.
  intros w Hw. simpl. destruct (documentCount w); simpl; auto.
Qed.

Lemma unindexed__invertedIndexGetToken tokens token :
  ensures (unindexed tokens) (_invertedIndexGetToken token) (fun _ => True).
Proof.
  apply ensures_try_catch; [| intros e; apply unindexed_absent_handler].
  unindexed_step; [| unindexed_step]. unindexed_step.
  intros w Hw. simpl. destruct (invertedIndex w !! token); simpl; auto.
Qed.

(** Writing the record of a token that is not in the list. *)
Lemma unindexed__invertedIndexSetToken tokens token r :
  existsb (String.eqb token) tokens = false ->
  ensures (unindexed tokens) (_invertedIndexSetToken token r) (fun _ => True).
Proof.
  intros Hnot. unindexed_step; [| unindexed_step]. unindexed_step.
  intros w Hw. simpl. split; [| exact I].
  unfold unindexed in *. rewrite List.Forall_forall in *. intros t Ht. simpl.
  rewrite lookup_insert_ne; [apply Hw, Ht |].
  intros ->. assert (existsb (String.eqb t) tokens = true) as H; [| congruence].
  apply existsb_exists. exists t. split; [exact Ht | apply String.eqb_refl].
Qed.

Lemma unindexed__invertedIndexInsert tokens token documentId posting :
  existsb (String.eqb token) tokens = false ->
  ensures (unindexed tokens) (_invertedIndexInsert token documentId posting)
    (fun _ => True).
Proof.
  intros Hnot. unindexed_step; [| unindexed_step].
  eapply ensures_bind; [apply unindexed__invertedIndexGetToken |].
  intros [parsed | |] _; [destruct (obj_get parsed documentId) | |];
    apply unindexed__invertedIndexSetToken, Hnot.
Qed.

Lemma unindexed__incrementNumDocuments tokens policy num :
  ensures (unindexed tokens) (_incrementNumDocuments policy num) (fun _ => True).
Proof.
  unindexed_step; [| unindexed_step].
  eapply ensures_bind; [apply unindexed__getNumDocuments | intros stored _].
  unindexed_step; [| unindexed_step].
  unfold store_put_count. destruct policy; simpl.
  - unindexed_step.
  - unindexed_step. apply (unindexed_other_key tokens (fun _ => Return tt)). reflexivity.
  - unindexed_step. apply (unindexed_other_key tokens (fun _ => Return tt)). reflexivity.
Qed.

Lemma unindexed__inverseDocumentFrequency tokens term :
  ensures (unindexed tokens) (_inverseDocumentFrequency term) (fun _ => True).
Proof.
  unindexed_step; [| repeat unindexed_step].
  eapply ensures_bind; [apply unindexed__getNumDocuments | intros numDocuments _].
  eapply ensures_bind; [apply unindexed__invertedIndexGetToken | intros raw _].
  unindexed_step; [| unindexed_step].
  destruct raw; repeat unindexed_step.
Qed.

Lemma unindexed__indexDocument tokenizeNormalize stopwords documentId doc :
  ensures (unindexed stopwords)
    (_indexDocument tokenizeNormalize stopwords documentId doc) (fun _ => True).
Proof.
  unindexed_step; [| unindexed_step].
  apply ensures_for_each. intros ft. apply ensures_for_each. intros token.
  destruct (existsb (String.eqb token) stopwords) eqn:E; [unindexed_step |].
  eapply ensures_bind; [apply unindexed__inverseDocumentFrequency | intros idf _].
  apply unindexed__invertedIndexInsert, E.
Qed.

Lemma unindexed_perform tokenizeNormalize stopwords JSON_stringify md5 policy c :
  ensures (unindexed stopwords)
    (perform tokenizeNormalize stopwords JSON_stringify md5 policy c) (fun _ => True).
Proof.
  destruct c as [doc | documentId partialUpdatedDocument | documentId]; simpl.
  - unindexed_step; [| unindexed_step].
    unindexed_step.
    + unindexed_step. apply (unindexed_other_key stopwords (fun _ => Return tt)). reflexivity.
    + eapply ensures_bind; [apply unindexed__incrementNumDocuments | intros _ _].
      apply unindexed__indexDocument.
  - unindexed_step; [| unindexed_step].
    unindexed_step.
    + apply ensures_try_catch; [| intros e; apply unindexed_absent_handler].
      unindexed_step; [| unindexed_step]. unindexed_step.
      intros w Hw. simpl. destruct (documents w !! documentId); simpl; auto.
    + unindexed_step. apply (unindexed_other_key stopwords (fun _ => Return tt)). reflexivity.
  - unindexed_step; [| unindexed_step].
    unindexed_step. apply (unindexed_other_key stopwords (fun _ => Return tt)). reflexivity.
Qed.

(** X24.  Whatever calls of [add], [update] and [delete] are made on an
    empty store, and whichever store operations fail, no stopword is a key of
    the inverted index. *)
Theorem stopwords_never_stored
    tokenizeNormalize stopwords JSON_stringify md5 policy
    (calls : list call) (failures : list bool) :
  let w :=
    fold_left
      (fun w c => snd (perform tokenizeNormalize stopwords JSON_stringify md5 policy c w))
      calls (empty_world failures) in
  Forall (fun token => invertedIndex w !! token = None) stopwords.
Proof.
  intros w. change (unindexed stopwords w). unfold w. clear w.
  assert (unindexed stopwords (empty_world failures)) as H0.
  { apply List.Forall_forall. intros t _. apply lookup_empty. }
  revert H0. generalize (empty_world failures) as w.
  induction calls as [| c calls IH]; intros w Hw; simpl; [exact Hw |].
  apply IH.
  apply (unindexed_perform tokenizeNormalize stopwords JSON_stringify md5 policy c w Hw).
Qed.

End PersistentStopwords.


(** * The further facts on examples *)

Section BakWitnesses.
Import Bak Examples Samples.


(** X6 on the titles of an engine that holds [{title: "cooking"}]. *)
Lemma addFieldBoosts_sets_registered_witness :
  let st := after words [] serialize digest [AddDocument doc_cooking] in
  let st' := addFieldBoosts st boost_title in
  (NoDup (obj_keys boost_title) /\ obj_get (fields st) "title" = Some 0) /\
  obj_get (fields st') "title" = Some 0 /\
  arr_get (fieldBoosts st') 0
  = match obj_get boost_title "title" with
    | Some b => Some b
    | None => arr_get (fieldBoosts st) 0
    end.
Proof.
  intros st st'.
  assert (NoDup (obj_keys boost_title)) as Hnd by apply NoDup_singleton.
  assert (obj_get (fields st) "title" = Some 0) as Hfield by reflexivity.
  split; [split; assumption |].
  exact (addFieldBoosts_sets_registered words [] serialize digest
           [AddDocument doc_cooking] boost_title "title" 0 Hnd Hfield).
Defined.

(** X10 on ["ideas"], which no document holds, and ["cooking"], which one
    document holds. *)
Lemma rarer_terms_weigh_more_witness :
  let st := bak_add constructor doc_cooking in
  numDocumentsContainTerm st "ideas" <= numDocumentsContainTerm st "cooking" /\
  jleb (inverseDocumentFrequency st "cooking") (inverseDocumentFrequency st "ideas") = true.
Proof.
  intros st.
  assert (numDocumentsContainTerm st "ideas" <= numDocumentsContainTerm st "cooking")
    as Hle by (apply Nat.leb_le; reflexivity).
  split; [exact Hle |].
  exact (rarer_terms_weigh_more st "cooking" "ideas" Hle).
Defined.


(** X14 on the query ["cooking cooking ideas"] against [{title: "cooking"}]. *)
Lemma coordination_of_a_match_witness :
  let st := bak_add constructor doc_cooking in
  let documentId := documentIdOf serialize digest doc_cooking in
  let tokenizedQuery := words "cooking cooking ideas" in
  In documentId (obj_keys (scoreDocuments st tokenizedQuery)) /\
  exists c,
    queryCoordination st tokenizedQuery documentId = Fin c /\
    (0 < c <= 1)%R /\
    (c = 1%R <->
     Forall (fun token => tokenInDocument st documentId token = true) tokenizedQuery).
Proof.
  intros st documentId tokenizedQuery.
  assert (In documentId (obj_keys (scoreDocuments st tokenizedQuery))) as Hcandidate
    by (left; reflexivity).
  split; [exact Hcandidate |].
  exact (coordination_of_a_match st tokenizedQuery documentId Hcandidate).
Defined.


End BakWitnesses.

Section PersistentWitnesses.
Import Persistent Examples Samples.

(** X16 on [{title: "cooking"}] added to the empty store. *)
Lemma get_after_add_witness :
  let w := empty_world [] in
  let documentId := _generateDocumentId serialize digest doc_cooking in
  let w' := snd (Examples.add AsText doc_cooking w) in
  faults w = [] /\
  get documentId w' = (Return (Found (serialize doc_cooking)), w').
Proof.
  intros w documentId w'.
  assert (faults w = []) as Hf by reflexivity.
  split; [exact Hf |].
  exact (get_after_add words [] serialize digest AsText doc_cooking w Hf).
Defined.

(** X17 on a store that holds [{title: "cooking"}]. *)
Lemma get_after_delete_witness :
  let documentId := _generateDocumentId serialize digest doc_cooking in
  let w := set_documents (insert documentId (serialize doc_cooking)) (empty_world []) in
  let w' := snd (delete documentId w) in
  faults w = [] /\
  get documentId w' = (Return Null, w') /\
  documents w' = base.delete documentId (documents w) /\
  console w' = console w.
Proof.
  intros documentId w w'.
  assert (faults w = []) as Hf by reflexivity.
  split; [exact Hf |].
  exact (get_after_delete documentId w Hf).
Defined.

(** X19 on a store whose first operation fails. *)
Lemma add_gives_up_when_the_store_fails_witness :
  let w := empty_world [true; false] in
  faults w = true :: [false] /\
  Examples.add AsText doc_cooking w
  = (Return tt, set_console (fun c => c ++ [IOError]) (set_faults [false] w)).
Proof.
  intros w.
  assert (faults w = true :: [false]) as Hf by reflexivity.
  split; [exact Hf |].
  exact (add_gives_up_when_the_store_fails words [] serialize digest AsText doc_cooking
           w [false] Hf).
Defined.

(** X20 on a store that holds [{title: "cooking"}] and whose first operation
    fails. *)
Lemma update_writes_after_a_failed_read_witness :
  let documentId := _generateDocumentId serialize digest doc_cooking in
  let w := set_documents (insert documentId (serialize doc_cooking)) (empty_world [true]) in
  let w' := snd (Examples.update documentId partial_body w) in
  (faults w = true :: [] /\ hd false [] = false) /\
  documents w' !! documentId = Some (serialize (Object_assign Undefined partial_body)) /\
  console w' = console w ++ [IOError].
Proof.
  intros documentId w w'.
  assert (faults w = true :: []) as Hf by reflexivity.
  assert (hd false (@nil bool) = false) as Hfs by reflexivity.
  split; [split; assumption |].
  exact (update_writes_after_a_failed_read serialize documentId partial_body w [] Hf Hfs).
Defined.

(** X21 on the empty store. *)
Lemma update_creates_an_absent_document_witness :
  let w := empty_world [] in
  (faults w = [] /\ documents w !! "recipes" = None /\ NoDup (map fst partial_body)) /\
  Examples.update "recipes" partial_body w
  = (Return tt, set_documents (insert "recipes" (serialize partial_body)) w).
Proof.
  intros w.
  assert (faults w = []) as Hf by reflexivity.
  assert (documents w !! "recipes" = None) as Habsent by apply lookup_empty.
  assert (NoDup (map fst partial_body)) as Hnd by apply NoDup_singleton.
  split; [auto |].
  exact (update_creates_an_absent_document serialize "recipes" partial_body w
           Hf Habsent Hnd).
Defined.

(** X23 on the empty store. *)
Lemma token_after_insert_witness :
  let w := empty_world [] in
  let w' := snd (_invertedIndexInsert "cooking" "recipes" posting_one w) in
  faults w = [] /\
  exists r,
    _invertedIndexGetToken "cooking" w' = (Return (Found r), w') /\
    r = obj_set
          (match invertedIndex w !! "cooking" with Some r => r | None => [] end)
          "recipes"
          (match obj_get (match invertedIndex w !! "cooking" with
                          | Some r => r
                          | None => []
                          end) "recipes" with
           | Some ps => ps
           | None => []
           end ++ [map to_json posting_one]) /\
    forall token',
      token' <> "cooking" -> invertedIndex w' !! token' = invertedIndex w !! token'.
Proof.
  intros w w'.
  assert (faults w = []) as Hf by reflexivity.
  split; [exact Hf |].
  exact (token_after_insert "cooking" "recipes" posting_one w Hf).
Defined.

End PersistentWitnesses.

